(** * Random search over a queryable search space

    A shallow embedding of [naslib/optimizers/discrete/rs/optimizer.py]:
    the edge functions [add_sampled_op_index] and [update_ops], the
    sampler [sample_random_architecture] and the [RandomSearch] optimizer.

    Python objects that are shared and mutated in place (search-space
    graphs, the optimizer itself, numpy's global generator) live in an
    explicit [World]; every method is a computation in a state-and-exception
    monad whose state survives a raised exception, as a Python object
    survives it. *)

From Stdlib Require Import ZArith Lia.
From stdpp Require Import base list strings sorting.

Local Open Scope Z_scope.
Local Open Scope nat_scope.

(** ** Exceptions and results *)

Inductive Exn : Type :=
  | AssertionError
  | AttributeError
  | IndexError
  | TypeError
  | ValueError.

Inductive Result (A : Type) : Type :=
  | Ok (a : A)
  | Raise (e : Exn).

Arguments Ok {A} a.
Arguments Raise {A} e.

(** ** Search-space objects *)

(** A primitive operation is known by its name. *)
Definition Op : Type := string.

(** The value of [edge.data.op]: the list of candidate primitives before
    discretization, a single operation after it. *)
Inductive OpSlot : Type :=
  | OpList (ops : list Op)
  | OpSingle (o : Op).

(** The attributes of [edge.data] the optimizer reads and writes; an
    attribute that was never set is [None]. *)
Record EdgeData : Type := mkEdgeData {
  op : OpSlot;
  primitives : option (list Op);
  op_index : option Z
}.

Record Edge : Type := mkEdge {
  tail_node : nat;
  head_node : nat;
  data : EdgeData
}.

(** A scope argument: [None], one scope name, or a list of names. *)
Inductive Scope : Type :=
  | ScopeNone
  | ScopeName (s : string)
  | ScopeNames (l : list string).

(** Python truthiness of a scope value, as tested by [scope if scope else ...]. *)
Definition truthy (s : Scope) : bool :=
  match s with
  | ScopeNone => false
  | ScopeName EmptyString => false
  | ScopeName (String _ _) => true
  | ScopeNames [] => false
  | ScopeNames (_ :: _) => true
  end.

Record Graph : Type := mkGraph {
  edges : list Edge;
  QUERYABLE : bool;
  OPTIMIZER_SCOPE : Scope
}.

Inductive Metric : Type :=
  | RAW
  | TRAIN_ACCURACY
  | VAL_ACCURACY
  | TRAIN_LOSS
  | VAL_LOSS.

(** Objects are referred to by their address in the heap. *)
Abbreviation loc := nat (only parsing).

(** A reference to one edge of a graph object. *)
Record EdgeRef : Type := mkEdgeRef {
  graph_of : loc;
  index_of : nat
}.

(** ** The optimizer object *)

(** The [torch.nn.Module] that [new_epoch] uses as a checkpointable pair. *)
Record Model : Type := mkModel {
  arch : loc;
  accuracy : Z
}.

Record Config : Type := mkConfig {
  config_dataset : string
}.

Record RandomSearch : Type := mkRandomSearch {
  weight_optimizer : string;
  loss : string;
  grad_clip : option Z;
  performance_metric : Metric;
  dataset : string;
  sampled_archs : list Model;
  history : list Model;
  search_space : option loc;
  scope : option Scope
}.

(** ** The world: heap, random generator, optimizer *)

Record World : Type := mkWorld {
  heap : list Graph;
  seed : nat -> Z;
  draws : nat;
  optimizer : RandomSearch
}.

Definition M (A : Type) : Type := World -> Result A * World.

Definition ret {A} (a : A) : M A := fun w => (Ok a, w).

Definition raise {A} (e : Exn) : M A := fun w => (Raise e, w).

Definition bind {A B} (m : M A) (k : A -> M B) : M B :=
  fun w =>
    match m w with
    | (Ok a, w') => k a w'
    | (Raise e, w') => (Raise e, w')
    end.

#[global] Instance M_ret : MRet M := @ret.
#[global] Instance M_bind : MBind M := fun A B k m => bind m k.

Definition set_optimizer (o : RandomSearch) : M unit :=
  fun w => (Ok tt, mkWorld (heap w) (seed w) (draws w) o).

Definition get_self : M RandomSearch := fun w => (Ok (optimizer w), w).

(** Reading an attribute that may be unset. *)
Definition attr {A} (o : option A) : M A :=
  match o with
  | Some a => ret a
  | None => raise AttributeError
  end.

(** Following a reference. A Python reference always points to an object;
    for an address outside the heap, which no address handed out by [alloc]
    is, the answer is an [AttributeError]. *)
Definition deref (l : loc) : M Graph :=
  fun w => match heap w !! l with
           | Some g => (Ok g, w)
           | None => (Raise AttributeError, w)
           end.

Definition store (l : loc) (g : Graph) : M unit :=
  fun w => (Ok tt, mkWorld (<[l := g]> (heap w)) (seed w) (draws w) (optimizer w)).

Definition alloc (g : Graph) : M loc :=
  fun w => (Ok (length (heap w)),
            mkWorld (heap w ++ [g]) (seed w) (draws w) (optimizer w)).

(** ** numpy and Python built-ins *)

(** [np.random.randint(high)]: an integer drawn from [0, high); a
    [ValueError] when [high <= 0]. The generator is numpy's global one.
    How numpy gets a result out of its state is not modelled: the raw
    values stand for whatever it draws, and of a result only that it lies
    in [0, high) is meant. *)
Definition randint (high : Z) : M Z :=
  fun w =>
    if (high <=? 0)%Z then (Raise ValueError, w)
    else (Ok (seed w (draws w) mod high)%Z,
          mkWorld (heap w) (seed w) (S (draws w)) (optimizer w)).

(** [len(edge.data.op)]: defined on a list, a [TypeError] on a single
    operation. *)
Definition py_len (o : OpSlot) : M Z :=
  match o with
  | OpList ops => ret (Z.of_nat (length ops))
  | OpSingle _ => raise TypeError
  end.

(** [lst[i]] with Python's negative indices. *)
Definition py_getitem {A} (lst : list A) (i : Z) : M A :=
  let n := Z.of_nat (length lst) in
  let j := if (i <? 0)%Z then (n + i)%Z else i in
  if (j <? 0)%Z then raise IndexError
  else match lst !! Z.to_nat j with
       | Some a => ret a
       | None => raise IndexError
       end.

(** [max(iterable, key=key)]: the first element whose key no later element
    exceeds; a [ValueError] on an empty iterable. *)
Fixpoint max_from {A} (key : A -> Z) (best : A) (l : list A) : A :=
  match l with
  | [] => best
  | x :: l' => max_from key (if (key x >? key best)%Z then x else best) l'
  end.

Definition py_max {A} (key : A -> Z) (l : list A) : M A :=
  match l with
  | [] => raise ValueError
  | x :: l' => mret (max_from key x l')
  end.

(** ** The search-space interface *)

(** Modelled from the spec: the graph class of the search-space library and
    the benchmark behind [query] are external collaborators and not among
    the sources. What a graph does in [prepare_discretization], which edges
    (tail, head) a scope selects and what the benchmark answers are left
    open. *)
Class SearchSpaceAPI : Type := {
  prepare : Graph -> Graph;
  in_scope : Scope -> nat -> nat -> bool;
  query : Graph -> Metric -> string -> Z
}.

Section Optimizer.

Context `{API : SearchSpaceAPI}.

(** Modelled from the spec: [search_space.clone()] of the external graph
    class, an independent copy at a fresh address. *)
Definition clone (self : loc) : M loc :=
  g ← deref self;
  alloc g.

(** Modelled from the spec: [architecture.prepare_discretization()] of the
    external graph class, acting on its receiver only. *)
Definition prepare_discretization (self : loc) : M unit :=
  g ← deref self;
  store self (prepare g).

(** Modelled from the spec: [arch.query(metric, dataset)] of the external
    graph class, a benchmark lookup that changes nothing. *)
Definition arch_query (self : loc) (metric : Metric) (ds : string) : M Z :=
  g ← deref self;
  mret (query g metric ds).

Definition get_edge (edge : EdgeRef) : M Edge :=
  g ← deref (graph_of edge);
  attr (edges g !! index_of edge).

(** [edge.data] *)
Definition edge_data (edge : EdgeRef) : M EdgeData :=
  e ← get_edge edge;
  mret (data e).

Definition set_edge_data (edge : EdgeRef) (d : EdgeData) : M unit :=
  g ← deref (graph_of edge);
  e ← attr (edges g !! index_of edge);
  store (graph_of edge)
        (mkGraph (<[index_of edge := mkEdge (tail_node e) (head_node e) d]> (edges g))
                 (QUERYABLE g) (OPTIMIZER_SCOPE g)).

(** [edge.data.set('op_index', v, shared=shared)] *)
Definition set_op_index (edge : EdgeRef) (v : Z) (shared : bool) : M unit :=
  d ← edge_data edge;
  set_edge_data edge (mkEdgeData (op d) (primitives d) (Some v)).

(** [edge.data.set('op', v)] *)
Definition set_op (edge : EdgeRef) (v : OpSlot) : M unit :=
  d ← edge_data edge;
  set_edge_data edge (mkEdgeData v (primitives d) (op_index d)).

(** [edge.data.set('primitives', v)] *)
Definition set_primitives (edge : EdgeRef) (v : list Op) : M unit :=
  d ← edge_data edge;
  set_edge_data edge (mkEdgeData (op d) (Some v) (op_index d)).

(** Modelled from the spec: [graph.update_edges(update_func, scope,
    private_edge_data)] of the external graph class: [update_func] is
    called on every edge the scope selects, in order. The graph is flat, so
    [private_edge_data] selects no further copies. *)
Fixpoint update_edges_loop (update_func : EdgeRef -> M unit) (sc : Scope)
    (self : loc) (indices : list nat) : M unit :=
  match indices with
  | [] => mret tt
  | i :: rest =>
      e ← get_edge (mkEdgeRef self i);
      (if in_scope sc (tail_node e) (head_node e) then update_func (mkEdgeRef self i) else mret tt);;
      update_edges_loop update_func sc self rest
  end.

Definition update_edges (self : loc) (update_func : EdgeRef -> M unit)
    (sc : Scope) (private_edge_data : bool) : M unit :=
  g ← deref self;
  update_edges_loop update_func sc self (seq 0 (length (edges g))).

(** ** The two functions that discretize the graph *)

Definition add_sampled_op_index (edge : EdgeRef) : M unit :=
  d ← edge_data edge;
  n ← py_len (op d);
  i ← randint n;
  set_op_index edge i true.

Definition update_ops (edge : EdgeRef) : M unit :=
  d ← edge_data edge;
  prims ← match op d with
          | OpList ops => mret ops
          | OpSingle _ => attr (primitives d)
          end;
  i ← attr (op_index d);
  o ← py_getitem prims i;
  set_op edge (OpSingle o);;
  set_primitives edge prims.

Definition sample_random_architecture (space : loc) (sc : Scope) : M loc :=
  architecture ← clone space;
  prepare_discretization architecture;;
  update_edges architecture add_sampled_op_index sc false;;
  update_edges architecture update_ops sc true;;
  mret architecture.

(** ** class RandomSearch *)

Definition using_step_function : bool := false.

Definition with_sampled_archs (self : RandomSearch) (v : list Model) : RandomSearch :=
  mkRandomSearch (weight_optimizer self) (loss self) (grad_clip self)
    (performance_metric self) (dataset self) v (history self)
    (search_space self) (scope self).

Definition with_history (self : RandomSearch) (v : list Model) : RandomSearch :=
  mkRandomSearch (weight_optimizer self) (loss self) (grad_clip self)
    (performance_metric self) (dataset self) (sampled_archs self) v
    (search_space self) (scope self).

Definition with_search_space (self : RandomSearch) (v : loc) : RandomSearch :=
  mkRandomSearch (weight_optimizer self) (loss self) (grad_clip self)
    (performance_metric self) (dataset self) (sampled_archs self) (history self)
    (Some v) (scope self).

Definition with_scope (self : RandomSearch) (v : Scope) : RandomSearch :=
  mkRandomSearch (weight_optimizer self) (loss self) (grad_clip self)
    (performance_metric self) (dataset self) (sampled_archs self) (history self)
    (search_space self) (Some v).

(** The object [__init__] leaves behind; [search_space] and [scope] are
    not yet attributes of it. *)
Definition __init__ (config : Config) (weight_opt : string)
    (loss_criteria : string) (clip : option Z) : RandomSearch :=
  mkRandomSearch weight_opt loss_criteria clip VAL_ACCURACY
    (config_dataset config) [] [] None None.

Definition adapt_search_space (space : loc) (sc : Scope) : M unit :=
  g ← deref space;
  if QUERYABLE g then
    c ← clone space;
    self ← get_self;
    set_optimizer (with_search_space self c);;
    self ← get_self;
    set_optimizer (with_scope self (if truthy sc then sc else OPTIMIZER_SCOPE g))
  else raise AssertionError.

(** The loop of [_update_history] over [enumerate(self.history)]: the first
    entry the child beats is overwritten, and the loop breaks. *)
Fixpoint history_scan (child : Model) (i : nat) (ps : list Model)
    (hist : list Model) : list Model :=
  match ps with
  | [] => hist
  | p :: ps' =>
      if (accuracy child >? accuracy p)%Z then <[i := child]> hist
      else history_scan child (S i) ps' hist
  end.

Definition _update_history (child : Model) : M unit :=
  self ← get_self;
  if length (history self) <? 100 then
    set_optimizer (with_history self (history self ++ [child]))
  else
    set_optimizer (with_history self (history_scan child 0 (history self) (history self))).

Definition new_epoch (e : nat) : M unit :=
  self ← get_self;
  space ← attr (search_space self);
  sc ← attr (scope self);
  a ← sample_random_architecture space sc;
  self ← get_self;
  acc ← arch_query a (performance_metric self) (dataset self);
  let model := mkModel a acc in
  self ← get_self;
  set_optimizer (with_sampled_archs self (sampled_archs self ++ [model]));;
  _update_history model.

Definition get_final_architecture : M loc :=
  self ← get_self;
  best ← py_max accuracy (sampled_archs self);
  mret (arch best).

Definition train_statistics : M (Z * Z * Z * Z) :=
  best_arch ← get_final_architecture;
  self ← get_self;
  a ← arch_query best_arch TRAIN_ACCURACY (dataset self);
  b ← arch_query best_arch TRAIN_LOSS (dataset self);
  c ← arch_query best_arch VAL_ACCURACY (dataset self);
  d ← arch_query best_arch VAL_LOSS (dataset self);
  mret (a, b, c, d).

Definition test_statistics : M Z :=
  best_arch ← get_final_architecture;
  self ← get_self;
  arch_query best_arch RAW (dataset self).

Definition get_op_optimizer : M string :=
  self ← get_self;
  mret (weight_optimizer self).

Definition get_checkpointables : M (list (string * list Model)) :=
  self ← get_self;
  mret [("model"%string, history self)].

(** ** Runs of the optimizer *)

Inductive Call : Type :=
  | CallAdapt (space : loc) (sc : Scope)
  | CallNewEpoch (e : nat).

Definition call (c : Call) : M unit :=
  match c with
  | CallAdapt space sc => adapt_search_space space sc
  | CallNewEpoch e => new_epoch e
  end.

Fixpoint run (cs : list Call) : M unit :=
  match cs with
  | [] => mret tt
  | c :: cs' => call c;; run cs'
  end.

Definition is_epoch (c : Call) : bool :=
  match c with
  | CallNewEpoch _ => true
  | CallAdapt _ _ => false
  end.

(** The number of [new_epoch] calls in a run. *)
Fixpoint epochs (cs : list Call) : nat :=
  match cs with
  | [] => 0
  | c :: cs' => (if is_epoch c then 1 else 0) + epochs cs'
  end.

(** The data of the edge a reference points to, if the edge exists. *)
Definition edge_at (w : World) (edge : EdgeRef) : option EdgeData :=
  match heap w !! graph_of edge with
  | Some g => data <$> edges g !! index_of edge
  | None => None
  end.

(** The world in which the data of an existing edge is replaced by [d]. *)
Definition write_edge (w : World) (edge : EdgeRef) (d : EdgeData) : World :=
  match heap w !! graph_of edge with
  | Some g =>
      match edges g !! index_of edge with
      | Some e =>
          mkWorld
            (<[graph_of edge :=
                 mkGraph
                   (<[index_of edge := mkEdge (tail_node e) (head_node e) d]> (edges g))
                   (QUERYABLE g) (OPTIMIZER_SCOPE g)]> (heap w))
            (seed w) (draws w) (optimizer w)
      | None => w
      end
  | None => w
  end.

(** The edge a reference points to, if it exists. *)
Definition edge_of (w : World) (edge : EdgeRef) : option Edge :=
  match heap w !! graph_of edge with
  | Some g => edges g !! index_of edge
  | None => None
  end.

(** Edge data in which [update_ops] finds a list of primitives and an
    index into it. *)
Definition indexed (d : EdgeData) : Prop :=
  exists ops k,
    op d = OpList ops /\ op_index d = Some k /\
    (0 <= k < Z.of_nat (length ops))%Z.

(** Edge data from which [add_sampled_op_index] can draw. *)
Definition drawable (d : EdgeData) : Prop :=
  exists ops, op d = OpList ops /\ ops <> [].

(** The edge exists and, if the scope selects it, its data satisfy [P]. *)
Definition selected (P : EdgeData -> Prop) (sc : Scope) (w : World)
    (edge : EdgeRef) : Prop :=
  exists e,
    edge_of w edge = Some e /\
    (in_scope sc (tail_node e) (head_node e) = true -> P (data e)).

(** [m] changes no edge but the one [edge] points to. *)
Definition writes {A} (edge : EdgeRef) (m : M A) : Prop :=
  forall w edge', edge' <> edge -> edge_of (m w).2 edge' = edge_of w edge'.

(** The world after one more draw from the generator. *)
Definition drawn (w : World) : World :=
  mkWorld (heap w) (seed w) (S (draws w)) (optimizer w).

(** The value of [self.history] once [_update_history(child)] is done. *)
Definition history_after (child : Model) (hist : list Model) : list Model :=
  if length hist <? 100 then hist ++ [child]
  else history_scan child 0 hist hist.

(** The optimizer [new_epoch] leaves behind after sampling [model]. *)
Definition recorded (self : RandomSearch) (model : Model) : RandomSearch :=
  with_history
    (with_sampled_archs self (sampled_archs self ++ [model]))
    (history_after model (history self)).

(** ** What holds of every state the optimizer reaches *)

Record consistent (w : World) : Prop := mkConsistent {
  metric_fixed :
    performance_metric (optimizer w) = VAL_ACCURACY;
  history_bounded :
    length (history (optimizer w)) =
    min (length (sampled_archs (optimizer w))) 100;
  history_sampled :
    history (optimizer w) ⊆+ sampled_archs (optimizer w);
  history_all :
    length (sampled_archs (optimizer w)) <= 100 ->
    history (optimizer w) = sampled_archs (optimizer w);
  history_best :
    forall m, m ∈ sampled_archs (optimizer w) ->
      exists p, p ∈ history (optimizer w) /\ (accuracy m <= accuracy p)%Z;
  sampled_queried :
    forall m, m ∈ sampled_archs (optimizer w) ->
      exists g, heap w !! arch m = Some g /\
                accuracy m = query g VAL_ACCURACY (dataset (optimizer w))
}.

(** The attributes that only [__init__] assigns. *)
Definition same_settings (o o' : RandomSearch) : Prop :=
  weight_optimizer o' = weight_optimizer o /\
  loss o' = loss o /\
  grad_clip o' = grad_clip o /\
  performance_metric o' = performance_metric o /\
  dataset o' = dataset o.

(** ** A top-k history, in the words of the specification *)

(** The [k] highest accuracies among the sampled models, best first. *)
Definition top_accuracies (k : nat) (sampled : list Model) : list Z :=
  take k (reverse (merge_sort Z.le (map accuracy sampled))).

(** [hist] is a top-[k] history of [sampled]: it is made of sampled models,
    and their accuracies are, as a multiset, the [k] highest. *)
Definition top_k_history (k : nat) (hist sampled : list Model) : Prop :=
  hist ⊆+ sampled /\ map accuracy hist ≡ₚ top_accuracies k sampled.

(** ** Frames *)

(** [m] changes neither the heap nor the optimizer. *)
Definition steady {A} (m : M A) : Prop :=
  forall w, heap (m w).2 = heap w /\ optimizer (m w).2 = optimizer w.

(** [m] writes to no object but the one at [a], allocates nothing and
    leaves the optimizer alone. *)
Definition touches {A} (a : loc) (m : M A) : Prop :=
  forall w,
    length (heap (m w).2) = length (heap w) /\
    (forall l, l <> a -> heap (m w).2 !! l = heap w !! l) /\
    optimizer (m w).2 = optimizer w.

(** [m] keeps every object that exists, at most adding new ones. *)
Definition extends {A} (m : M A) : Prop :=
  forall w, heap w `prefix_of` heap (m w).2.

(** ** Values the edge functions read *)

(** The value of [lst[i]], [None] where Python raises an [IndexError]. *)
Definition item {A} (lst : list A) (i : Z) : option A :=
  let n := Z.of_nat (length lst) in
  let j := if (i <? 0)%Z then (n + i)%Z else i in
  if (j <? 0)%Z then None else lst !! Z.to_nat j.

(** The list [update_ops] calls [primitives]: [edge.data.op] if that is a
    list, [edge.data.primitives] otherwise. *)
Definition candidates (d : EdgeData) : option (list Op) :=
  match op d with
  | OpList ops => Some ops
  | OpSingle _ => primitives d
  end.

(** ** What sampling makes of an edge *)

(** [e'] is [e] after [add_sampled_op_index], if the scope selects it: an
    index into the list of primitives, and nothing else, is new. *)
Definition index_drawn (sc : Scope) (e e' : Edge) : Prop :=
  tail_node e' = tail_node e /\ head_node e' = head_node e /\
  if in_scope sc (tail_node e) (head_node e) then
    exists ops k,
      op (data e) = OpList ops /\
      (0 <= k < Z.of_nat (length ops))%Z /\
      data e' = mkEdgeData (OpList ops) (primitives (data e)) (Some k)
  else e' = e.

(** [e'] is [e] after [update_ops], if the scope selects it. *)
Definition op_chosen (sc : Scope) (e e' : Edge) : Prop :=
  tail_node e' = tail_node e /\ head_node e' = head_node e /\
  if in_scope sc (tail_node e) (head_node e) then
    exists ops k o,
      op (data e) = OpList ops /\ op_index (data e) = Some k /\
      (0 <= k < Z.of_nat (length ops))%Z /\
      ops !! Z.to_nat k = Some o /\
      data e' = mkEdgeData (OpSingle o) (Some ops) (Some k)
  else e' = e.

(** [e'] is [e] after both passes: an edge the scope selects carries one
    of its own candidate primitives, the list they came from and the index
    of the choice; any other edge is as it was. *)
Definition discretized (sc : Scope) (e e' : Edge) : Prop :=
  tail_node e' = tail_node e /\ head_node e' = head_node e /\
  if in_scope sc (tail_node e) (head_node e) then
    exists ops k o,
      op (data e) = OpList ops /\
      (0 <= k < Z.of_nat (length ops))%Z /\
      ops !! Z.to_nat k = Some o /\
      data e' = mkEdgeData (OpSingle o) (Some ops) (Some k)
  else e' = e.

(** What of a graph no edge function changes. *)
Definition graph_shape (w : World) (a : loc) : option (nat * bool * Scope) :=
  (fun g => (length (edges g), QUERYABLE g, OPTIMIZER_SCOPE g)) <$> heap w !! a.

(** [m] changes the shape of no graph. *)
Definition shapes {A} (m : M A) : Prop :=
  forall w a, graph_shape (m w).2 a = graph_shape w a.

(** The architectures of the sampled models are objects of their own:
    made after the heap had [n0] objects, pairwise distinct, and none of
    them the stored search space. *)
Record separated (n0 : nat) (w : World) : Prop := mkSeparated {
  heap_grown : n0 <= length (heap w);
  archs_distinct : NoDup (arch <$> sampled_archs (optimizer w));
  archs_new :
    forall m, m ∈ sampled_archs (optimizer w) ->
      n0 <= arch m < length (heap w);
  space_apart :
    forall s, search_space (optimizer w) = Some s ->
      s < length (heap w) /\
      forall m, m ∈ sampled_archs (optimizer w) -> arch m <> s
}.

(** The model [get_final_architecture] picks is in the history. *)
Definition final_kept (o : RandomSearch) : Prop :=
  match sampled_archs o with
  | [] => True
  | x :: l => max_from accuracy x l ∈ history o
  end.

End Optimizer.

(** ** A small benchmark to run the optimizer on *)

Module Toy.

(** One edge with three candidate primitives; the benchmark knows the
    accuracy of each discretized choice. *)
Definition space : Graph :=
  mkGraph
    [mkEdge 0 1 (mkEdgeData (OpList ["conv"; "skip"; "pool"]%string) None None)]
    true (ScopeName "all").

Definition closed_space : Graph :=
  mkGraph (edges space) false (ScopeName "all").

Definition score (o : Op) : Z :=
  if decide (o = "conv"%string) then 5%Z
  else if decide (o = "skip"%string) then 1%Z
  else if decide (o = "pool"%string) then 6%Z
  else 0%Z.

Definition api : SearchSpaceAPI := {|
  prepare := fun g => g;
  in_scope := fun _ _ _ => true;
  query := fun g _ _ =>
    match edges g with
    | e :: _ => match op (data e) with
                | OpSingle o => score o
                | OpList _ => 0%Z
                end
    | [] => 0%Z
    end
|}.

(** Raw generator output: the first draw picks [conv], the next ninety-nine
    pick [skip], every later one picks [pool]. *)
Definition raw (n : nat) : Z :=
  if n =? 0 then 0%Z else if n <? 100 then 1%Z else 2%Z.

Definition fresh : RandomSearch :=
  __init__ (mkConfig "cifar10") "SGD" "CrossEntropyLoss" None.

Definition world : World := mkWorld [space; closed_space] raw 0 fresh.

Definition calls (n : nat) : list Call :=
  CallAdapt 0 ScopeNone :: map CallNewEpoch (seq 0 n).

Definition after (n : nat) : World := (run (API := api) (calls n) world).2.

End Toy.

(** ** A graph whose edges carry indices already *)

Module Stale.

(** Two edges with three candidate primitives each: the first with an
    index past the end of the list, the second with the index [-1]; and a
    third edge with no candidate at all. *)
Definition space : Graph :=
  mkGraph
    [mkEdge 0 1 (mkEdgeData (OpList ["conv"; "skip"; "pool"]%string) None (Some 7%Z));
     mkEdge 1 2 (mkEdgeData (OpList ["conv"; "skip"; "pool"]%string) None (Some (-1)%Z));
     mkEdge 2 3 (mkEdgeData (OpList []) None None)]
    true (ScopeName "all").

Definition world : World := mkWorld [space] Toy.raw 0 Toy.fresh.

End Stale.


(** * Properties *)

(** ** The scan of the history *)

Section Scan.

Implicit Types (child p : Model) (ps hist : list Model).

Lemma history_scan_app child pre ps :
  history_scan child (length pre) ps (pre ++ ps) =
  pre ++ history_scan child 0 ps ps.
Proof.
  revert pre. induction ps as [|p ps IH]; intros pre; simpl.
  - reflexivity.
  - destruct (accuracy child >? accuracy p)%Z.
    + rewrite insert_app_r_alt by lia.
      replace (length pre - length pre) with 0 by lia. reflexivity.
    + change (history_scan child 1 ps (p :: ps))
        with (history_scan child (length [p]) ps ([p] ++ ps)).
      rewrite (IH [p]).
      replace (pre ++ p :: ps) with ((pre ++ [p]) ++ ps)
        by (rewrite <- app_assoc; reflexivity).
      replace (S (length pre)) with (length (pre ++ [p]))
        by (rewrite length_app; simpl; lia).
      rewrite IH, <- app_assoc. reflexivity.
Qed.

(** The scan, unrolled by one entry. *)
Lemma history_scan_cons child p ps :
  history_scan child 0 (p :: ps) (p :: ps) =
  if (accuracy child >? accuracy p)%Z then child :: ps
  else p :: history_scan child 0 ps ps.
Proof.
  simpl. destruct (accuracy child >? accuracy p)%Z; [reflexivity |].
  apply (history_scan_app child [p] ps).
Qed.

Lemma history_scan_length child ps :
  length (history_scan child 0 ps ps) = length ps.
Proof.
  induction ps as [|p ps IH]; [reflexivity |].
  rewrite history_scan_cons.
  destruct (accuracy child >? accuracy p)%Z; simpl; congruence.
Qed.

Lemma history_scan_submseteq child ps :
  history_scan child 0 ps ps ⊆+ child :: ps.
Proof.
  induction ps as [|p ps IH]; [apply submseteq_nil_l |].
  rewrite history_scan_cons.
  destruct (accuracy child >? accuracy p)%Z.
  - apply submseteq_skip, submseteq_cons. reflexivity.
  - etransitivity; [apply submseteq_skip, IH |].
    apply Permutation_submseteq, perm_swap.
Qed.

(** No entry is lost to a worse one: what the scan overwrites is beaten by
    what it writes. *)
Lemma history_scan_keeps child ps m :
  m ∈ ps ->
  exists p, p ∈ history_scan child 0 ps ps /\ (accuracy m <= accuracy p)%Z.
Proof.
  induction ps as [|q ps IH]; intros Hm; [inversion Hm |].
  rewrite history_scan_cons.
  destruct (accuracy child >? accuracy q)%Z eqn:Hgt.
  - apply elem_of_cons in Hm as [->|Hm].
    + exists child. split; [left | lia].
    + exists m. split; [right; exact Hm | lia].
  - apply elem_of_cons in Hm as [->|Hm].
    + exists q. split; [left | lia].
    + destruct (IH Hm) as (p & Hp & Hle).
      exists p. split; [right; exact Hp | exact Hle].
Qed.

(** The child is matched by an entry of a non-empty history after the scan. *)
Lemma history_scan_child child ps :
  ps <> [] ->
  exists p, p ∈ history_scan child 0 ps ps /\ (accuracy child <= accuracy p)%Z.
Proof.
  destruct ps as [|q ps]; [congruence | intros _].
  rewrite history_scan_cons.
  destruct (accuracy child >? accuracy q)%Z eqn:Hgt.
  - exists child. split; [left | lia].
  - exists q. split; [left | lia].
Qed.

(** The scan overwrites the first entry the child beats, if there is one. *)
Lemma history_scan_find child ps :
  history_scan child 0 ps ps =
  match list_find (fun p => (accuracy p < accuracy child)%Z) ps with
  | Some (i, _) => <[i := child]> ps
  | None => ps
  end.
Proof.
  induction ps as [|q ps IH]; [reflexivity |].
  rewrite history_scan_cons. simpl.
  destruct (decide (accuracy q < accuracy child)%Z) as [Hlt|Hlt].
  - replace (accuracy child >? accuracy q)%Z with true by lia. reflexivity.
  - replace (accuracy child >? accuracy q)%Z with false by lia.
    rewrite IH.
    destruct (list_find _ ps) as [[i x]|]; reflexivity.
Qed.

Lemma history_after_length child hist :
  length (history_after child hist) = min (S (length hist)) (max 100 (length hist)).
Proof.
  unfold history_after.
  destruct (length hist <? 100) eqn:Hlt.
  - apply Nat.ltb_lt in Hlt. rewrite length_app.
    change (length [child]) with 1. lia.
  - apply Nat.ltb_ge in Hlt. rewrite history_scan_length. lia.
Qed.

Lemma history_after_submseteq child hist sampled :
  hist ⊆+ sampled -> history_after child hist ⊆+ sampled ++ [child].
Proof.
  intros Hsub. unfold history_after.
  destruct (length hist <? 100).
  - apply submseteq_app; [exact Hsub | reflexivity].
  - etransitivity; [apply history_scan_submseteq |].
    etransitivity; [apply submseteq_skip, Hsub |].
    apply Permutation_submseteq, Permutation_cons_append.
Qed.

Lemma history_after_keeps child hist m :
  m ∈ hist ->
  exists p, p ∈ history_after child hist /\ (accuracy m <= accuracy p)%Z.
Proof.
  intros Hm. unfold history_after.
  destruct (length hist <? 100).
  - exists m. split; [apply elem_of_app; left; exact Hm | lia].
  - apply history_scan_keeps, Hm.
Qed.

Lemma history_after_child child hist :
  exists p, p ∈ history_after child hist /\ (accuracy child <= accuracy p)%Z.
Proof.
  unfold history_after.
  destruct (length hist <? 100) eqn:Hlt.
  - exists child. split; [apply elem_of_app; right; left | lia].
  - apply history_scan_child. apply Nat.ltb_ge in Hlt.
    intros ->. simpl in Hlt. lia.
Qed.

(** [max] with a key returns an element no other exceeds. *)
Lemma max_from_spec {A} (key : A -> Z) (best : A) (l : list A) :
  max_from key best l ∈ best :: l /\
  forall y, y ∈ best :: l -> (key y <= key (max_from key best l))%Z.
Proof.
  revert best. induction l as [|x l IH]; intros best; simpl.
  - split; [left |]. intros y Hy. apply list_elem_of_singleton in Hy as ->. lia.
  - destruct (IH (if (key x >? key best)%Z then x else best)) as [Hin Hmax].
    split.
    + apply elem_of_cons in Hin as [Heq|Hin].
      * rewrite Heq. destruct (key x >? key best)%Z; [right; left | left].
      * right; right; exact Hin.
    + intros y Hy.
      assert (Hstep : (key best <= key (if (key x >? key best)%Z then x else best))%Z
                      /\ (key x <= key (if (key x >? key best)%Z then x else best))%Z).
      { destruct (key x >? key best)%Z eqn:Hgt; lia. }
      assert (Hb := Hmax _ (list_elem_of_here _ _)).
      apply elem_of_cons in Hy as [->|Hy]; [lia |].
      apply elem_of_cons in Hy as [->|Hy]; [lia |].
      apply Hmax. right. exact Hy.
Qed.

End Scan.

Section Properties.

Context `{API : SearchSpaceAPI}.

(** ** Stepping through a computation *)

Lemma bind_eq {A B} (m : M A) (k : A -> M B) (w : World) :
  (m ≫= k) w = match m w with
               | (Ok a, w') => k a w'
               | (Raise e, w') => (Raise e, w')
               end.
Proof. reflexivity. Qed.

Lemma bind_ok {A B} (m : M A) (k : A -> M B) w a w' :
  m w = (Ok a, w') -> (m ≫= k) w = k a w'.
Proof. intros E. rewrite bind_eq, E. reflexivity. Qed.

Lemma bind_raise {A B} (m : M A) (k : A -> M B) w e w' :
  m w = (Raise e, w') -> (m ≫= k) w = (Raise e, w').
Proof. intros E. rewrite bind_eq, E. reflexivity. Qed.

(** Splits the first bind of the goal on how its head computation ends. *)
Ltac step :=
  match goal with
  | |- context [ (?m ≫= ?k) ?w ] =>
      let a := fresh "a" in
      let e := fresh "e" in
      let w1 := fresh "w" in
      let E := fresh "E" in
      destruct (m w) as [[a|e] w1] eqn:E;
      [ rewrite (bind_ok m k w a w1 E) | rewrite (bind_raise m k w e w1 E) ]
  end.

(** ** Steady computations *)

Lemma steady_ret {A} (a : A) : steady (mret a : M A).
Proof. intros w. split; reflexivity. Qed.

Lemma steady_raise {A} (e : Exn) : steady (raise e : M A).
Proof. intros w. split; reflexivity. Qed.

Lemma steady_bind {A B} (m : M A) (k : A -> M B) :
  steady m -> (forall a, steady (k a)) -> steady (m ≫= k).
Proof.
  intros Hm Hk w. rewrite bind_eq.
  destruct (Hm w) as [H1 H2].
  destruct (m w) as [[a|e] w1]; simpl in *.
  - destruct (Hk a w1) as [H3 H4]. split; congruence.
  - split; assumption.
Qed.

Lemma steady_attr {A} (o : option A) : steady (attr o).
Proof. destruct o; [apply steady_ret | apply steady_raise]. Qed.

Lemma steady_get_self : steady get_self.
Proof. intros w. split; reflexivity. Qed.

Lemma steady_deref l : steady (deref l).
Proof. intros w. unfold deref. destruct (heap w !! l); split; reflexivity. Qed.

Lemma steady_randint high : steady (randint high).
Proof. intros w. unfold randint. destruct (high <=? 0)%Z; split; reflexivity. Qed.

Lemma steady_py_len o : steady (py_len o).
Proof. destruct o; [apply steady_ret | apply steady_raise]. Qed.

Lemma steady_py_getitem {A} (lst : list A) i : steady (py_getitem lst i).
Proof.
  unfold py_getitem. cbv zeta.
  destruct (_ <? 0)%Z; [apply steady_raise |].
  destruct (lst !! _); [apply steady_ret | apply steady_raise].
Qed.

Lemma steady_py_max {A} (key : A -> Z) l : steady (py_max key l).
Proof. destruct l; [apply steady_raise | apply steady_ret]. Qed.

Lemma steady_get_edge edge : steady (get_edge edge).
Proof.
  apply steady_bind; [apply steady_deref | intros g; apply steady_attr].
Qed.

Lemma steady_edge_data edge : steady (edge_data edge).
Proof.
  apply steady_bind; [apply steady_get_edge | intros e; apply steady_ret].
Qed.

Lemma steady_arch_query a metric ds : steady (arch_query a metric ds).
Proof.
  apply steady_bind; [apply steady_deref | intros g; apply steady_ret].
Qed.

(** ** Computations that write to one object *)

Lemma steady_touches {A} a (m : M A) : steady m -> touches a m.
Proof.
  intros Hm w. destruct (Hm w) as [H1 H2]. rewrite H1. auto.
Qed.

Lemma touches_bind {A B} a (m : M A) (k : A -> M B) :
  touches a m -> (forall x, touches a (k x)) -> touches a (m ≫= k).
Proof.
  intros Hm Hk w. rewrite bind_eq.
  destruct (Hm w) as (H1 & H2 & H3).
  destruct (m w) as [[x|e] w1]; simpl in *.
  - destruct (Hk x w1) as (H4 & H5 & H6).
    split; [congruence |]. split; [| congruence].
    intros l Hl. rewrite H5, H2; auto.
  - auto.
Qed.

Lemma touches_store a g : touches a (store a g).
Proof.
  intros w. simpl. split; [apply length_insert |].
  split; [| reflexivity].
  intros l Hl. apply list_lookup_insert_ne. auto.
Qed.

Lemma touches_set_edge_data edge d :
  touches (graph_of edge) (set_edge_data edge d).
Proof.
  apply touches_bind; [apply steady_touches, steady_deref | intros g].
  apply touches_bind; [apply steady_touches, steady_attr | intros e].
  apply touches_store.
Qed.

Lemma touches_set_op_index edge v shared :
  touches (graph_of edge) (set_op_index edge v shared).
Proof.
  apply touches_bind; [apply steady_touches, steady_edge_data | intros d].
  apply touches_set_edge_data.
Qed.

Lemma touches_set_op edge v : touches (graph_of edge) (set_op edge v).
Proof.
  apply touches_bind; [apply steady_touches, steady_edge_data | intros d].
  apply touches_set_edge_data.
Qed.

Lemma touches_set_primitives edge v :
  touches (graph_of edge) (set_primitives edge v).
Proof.
  apply touches_bind; [apply steady_touches, steady_edge_data | intros d].
  apply touches_set_edge_data.
Qed.

Lemma touches_add_sampled_op_index edge :
  touches (graph_of edge) (add_sampled_op_index edge).
Proof.
  apply touches_bind; [apply steady_touches, steady_edge_data | intros d].
  apply touches_bind; [apply steady_touches, steady_py_len | intros n].
  apply touches_bind; [apply steady_touches, steady_randint | intros i].
  apply touches_set_op_index.
Qed.

Lemma touches_update_ops edge : touches (graph_of edge) (update_ops edge).
Proof.
  apply touches_bind; [apply steady_touches, steady_edge_data | intros d].
  apply touches_bind.
  { apply steady_touches. destruct (op d); [apply steady_ret | apply steady_attr]. }
  intros prims.
  apply touches_bind; [apply steady_touches, steady_attr | intros i].
  apply touches_bind; [apply steady_touches, steady_py_getitem | intros o].
  apply touches_bind; [apply touches_set_op | intros _].
  apply touches_set_primitives.
Qed.

Lemma touches_update_edges_loop f sc a indices :
  (forall i, touches a (f (mkEdgeRef a i))) ->
  touches a (update_edges_loop f sc a indices).
Proof.
  intros Hf. induction indices as [|i rest IH]; simpl.
  - apply steady_touches, steady_ret.
  - apply touches_bind; [apply steady_touches, steady_get_edge | intros e].
    apply touches_bind; [| intros _; exact IH].
    destruct (in_scope sc _ _); [apply Hf | apply steady_touches, steady_ret].
Qed.

Lemma touches_update_edges f sc a private_edge_data :
  (forall i, touches a (f (mkEdgeRef a i))) ->
  touches a (update_edges a f sc private_edge_data).
Proof.
  intros Hf.
  apply touches_bind; [apply steady_touches, steady_deref | intros g].
  apply touches_update_edges_loop, Hf.
Qed.

Lemma touches_prepare_discretization a : touches a (prepare_discretization a).
Proof.
  apply touches_bind; [apply steady_touches, steady_deref | intros g].
  apply touches_store.
Qed.

(** What [sample_random_architecture] does once the clone exists. *)
Lemma touches_discretize a sc :
  touches a
    (prepare_discretization a;;
     update_edges a add_sampled_op_index sc false;;
     update_edges a update_ops sc true;;
     (mret a : M loc)).
Proof.
  apply touches_bind; [apply touches_prepare_discretization | intros _].
  apply touches_bind.
  { apply touches_update_edges. intros i.
    apply (touches_add_sampled_op_index (mkEdgeRef a i)). }
  intros _. apply touches_bind.
  { apply touches_update_edges. intros i.
    apply (touches_update_ops (mkEdgeRef a i)). }
  intros _. apply steady_touches, steady_ret.
Qed.

Lemma discretize_result a sc w x :
  ((prepare_discretization a;;
    update_edges a add_sampled_op_index sc false;;
    update_edges a update_ops sc true;;
    (mret a : M loc)) w).1 = Ok x ->
  x = a.
Proof.
  repeat (step; [| intros [=]]).
  simpl. intros [=]. auto.
Qed.

(** ** Computations that only add objects *)

Lemma prefix_of_last (h h' : list Graph) g :
  length h' = length (h ++ [g]) ->
  (forall l, l <> length h -> h' !! l = (h ++ [g]) !! l) ->
  h `prefix_of` h'.
Proof.
  intros Hlen Hsame. exists (drop (length h) h').
  rewrite <- (take_drop (length h) h') at 1. f_equal.
  apply list_eq. intros i.
  destruct (decide (i < length h)) as [Hi|Hi].
  - rewrite lookup_take_lt by exact Hi.
    rewrite Hsame by lia. rewrite lookup_app_l by exact Hi. reflexivity.
  - rewrite lookup_take_ge by lia.
    symmetry. apply lookup_ge_None. lia.
Qed.

Lemma steady_extends {A} (m : M A) : steady m -> extends m.
Proof. intros Hm w. destruct (Hm w) as [-> _]. reflexivity. Qed.

Lemma extends_bind {A B} (m : M A) (k : A -> M B) :
  extends m -> (forall x, extends (k x)) -> extends (m ≫= k).
Proof.
  intros Hm Hk w. rewrite bind_eq. specialize (Hm w).
  destruct (m w) as [[x|e] w1]; simpl in *.
  - etransitivity; [exact Hm | apply Hk].
  - exact Hm.
Qed.

Lemma clone_spec space w :
  match heap w !! space with
  | Some g =>
      clone space w =
        (Ok (length (heap w)),
         mkWorld (heap w ++ [g]) (seed w) (draws w) (optimizer w))
  | None => clone space w = (Raise AttributeError, w)
  end.
Proof.
  unfold clone. rewrite bind_eq. unfold deref.
  destruct (heap w !! space); reflexivity.
Qed.

Lemma sample_random_architecture_frame space sc w :
  heap w `prefix_of` heap (sample_random_architecture space sc w).2 /\
  optimizer (sample_random_architecture space sc w).2 = optimizer w /\
  forall a, (sample_random_architecture space sc w).1 = Ok a ->
    a = length (heap w) /\
    length (heap (sample_random_architecture space sc w).2) = S (length (heap w)).
Proof.
  unfold sample_random_architecture. rewrite bind_eq.
  pose proof (clone_spec space w) as Hc.
  destruct (heap w !! space) as [g|]; rewrite Hc; simpl.
  2: { split; [reflexivity |]. split; [reflexivity |]. intros a [=]. }
  set (w1 := mkWorld (heap w ++ [g]) (seed w) (draws w) (optimizer w)).
  destruct (touches_discretize (length (heap w)) sc w1) as (Hlen & Hsame & Hopt).
  split; [| split].
  - eapply prefix_of_last; [exact Hlen | exact Hsame].
  - exact Hopt.
  - intros a Ha. split.
    + eapply discretize_result. exact Ha.
    + rewrite Hlen. simpl. rewrite length_app. simpl. lia.
Qed.

(** ** Reading and writing edge data *)

Lemma edge_data_spec edge w :
  edge_data edge w =
    (match edge_at w edge with
     | Some d => Ok d
     | None => Raise AttributeError
     end, w).
Proof.
  unfold edge_data, get_edge, edge_at. rewrite !bind_eq. unfold deref.
  destruct (heap w !! graph_of edge) as [g|]; [| reflexivity].
  simpl. destruct (edges g !! index_of edge); reflexivity.
Qed.

Lemma set_edge_data_spec edge d w :
  set_edge_data edge d w =
    (match edge_at w edge with
     | Some _ => Ok tt
     | None => Raise AttributeError
     end, write_edge w edge d).
Proof.
  unfold set_edge_data, edge_at, write_edge. rewrite !bind_eq. unfold deref.
  destruct (heap w !! graph_of edge) as [g|]; [| reflexivity].
  rewrite bind_eq.
  destruct (edges g !! index_of edge); reflexivity.
Qed.

Lemma edge_at_write_same w edge d :
  is_Some (edge_at w edge) -> edge_at (write_edge w edge d) edge = Some d.
Proof.
  unfold edge_at, write_edge.
  destruct (heap w !! graph_of edge) as [g|] eqn:Hg; [| intros [? [=]]].
  destruct (edges g !! index_of edge) as [e|] eqn:He; [| intros [? [=]]].
  intros _. simpl.
  rewrite list_lookup_insert_eq by (eapply lookup_lt_Some; exact Hg).
  simpl. rewrite list_lookup_insert_eq by (eapply lookup_lt_Some; exact He).
  reflexivity.
Qed.

Lemma edge_at_write_other w edge edge' d :
  edge' <> edge -> edge_at (write_edge w edge d) edge' = edge_at w edge'.
Proof.
  intros Hne. unfold edge_at, write_edge.
  destruct (heap w !! graph_of edge) as [g|] eqn:Hg; [| reflexivity].
  destruct (edges g !! index_of edge) as [e|] eqn:He; [| reflexivity].
  simpl.
  destruct (decide (graph_of edge' = graph_of edge)) as [Hgr|Hgr].
  - rewrite Hgr, Hg.
    rewrite list_lookup_insert_eq by (eapply lookup_lt_Some; exact Hg).
    simpl. rewrite list_lookup_insert_ne; [reflexivity |].
    intros Hi. apply Hne. destruct edge, edge'; simpl in *. congruence.
  - rewrite list_lookup_insert_ne by auto. reflexivity.
Qed.

Lemma set_op_index_spec edge v shared w :
  set_op_index edge v shared w =
    match edge_at w edge with
    | Some d =>
        (Ok tt, write_edge w edge (mkEdgeData (op d) (primitives d) (Some v)))
    | None => (Raise AttributeError, w)
    end.
Proof.
  unfold set_op_index. rewrite bind_eq, edge_data_spec.
  destruct (edge_at w edge) as [d|] eqn:Hd; [| reflexivity].
  rewrite set_edge_data_spec, Hd. reflexivity.
Qed.

Lemma set_op_spec edge v w :
  set_op edge v w =
    match edge_at w edge with
    | Some d =>
        (Ok tt, write_edge w edge (mkEdgeData v (primitives d) (op_index d)))
    | None => (Raise AttributeError, w)
    end.
Proof.
  unfold set_op. rewrite bind_eq, edge_data_spec.
  destruct (edge_at w edge) as [d|] eqn:Hd; [| reflexivity].
  rewrite set_edge_data_spec, Hd. reflexivity.
Qed.

Lemma set_primitives_spec edge v w :
  set_primitives edge v w =
    match edge_at w edge with
    | Some d =>
        (Ok tt, write_edge w edge (mkEdgeData (op d) (Some v) (op_index d)))
    | None => (Raise AttributeError, w)
    end.
Proof.
  unfold set_primitives. rewrite bind_eq, edge_data_spec.
  destruct (edge_at w edge) as [d|] eqn:Hd; [| reflexivity].
  rewrite set_edge_data_spec, Hd. reflexivity.
Qed.

Lemma edge_at_of w edge : edge_at w edge = data <$> edge_of w edge.
Proof.
  unfold edge_at, edge_of. destruct (heap w !! graph_of edge); reflexivity.
Qed.

Lemma get_edge_spec edge w :
  get_edge edge w =
    (match edge_of w edge with
     | Some e => Ok e
     | None => Raise AttributeError
     end, w).
Proof.
  unfold get_edge, edge_of. rewrite bind_eq. unfold deref.
  destruct (heap w !! graph_of edge) as [g|]; [| reflexivity].
  destruct (edges g !! index_of edge); reflexivity.
Qed.

Lemma edge_of_write_same w edge d e :
  edge_of w edge = Some e ->
  edge_of (write_edge w edge d) edge =
    Some (mkEdge (tail_node e) (head_node e) d).
Proof.
  unfold edge_of, write_edge.
  destruct (heap w !! graph_of edge) as [g|] eqn:Hg; [| intros [=]].
  intros He. rewrite He. simpl.
  rewrite list_lookup_insert_eq by (eapply lookup_lt_Some; exact Hg).
  simpl. rewrite list_lookup_insert_eq by (eapply lookup_lt_Some; exact He).
  reflexivity.
Qed.

Lemma edge_of_write_other w edge edge' d :
  edge' <> edge -> edge_of (write_edge w edge d) edge' = edge_of w edge'.
Proof.
  intros Hne. unfold edge_of, write_edge.
  destruct (heap w !! graph_of edge) as [g|] eqn:Hg; [| reflexivity].
  destruct (edges g !! index_of edge) as [e|] eqn:He; [| reflexivity].
  simpl.
  destruct (decide (graph_of edge' = graph_of edge)) as [Hgr|Hgr].
  - rewrite Hgr, Hg.
    rewrite list_lookup_insert_eq by (eapply lookup_lt_Some; exact Hg).
    simpl. rewrite list_lookup_insert_ne; [reflexivity |].
    intros Hi. apply Hne. destruct edge, edge'; simpl in *. congruence.
  - rewrite list_lookup_insert_ne by auto. reflexivity.
Qed.

(** ** Computations that write to one edge *)

Lemma steady_writes {A} edge (m : M A) : steady m -> writes edge m.
Proof.
  intros Hm w edge' _. destruct (Hm w) as [Hh _].
  unfold edge_of. rewrite Hh. reflexivity.
Qed.

Lemma writes_bind {A B} edge (m : M A) (k : A -> M B) :
  writes edge m -> (forall x, writes edge (k x)) -> writes edge (m ≫= k).
Proof.
  intros Hm Hk w edge' Hne. rewrite bind_eq.
  specialize (Hm w edge' Hne).
  destruct (m w) as [[x|e] w1]; simpl in *; [| exact Hm].
  rewrite (Hk x w1 edge' Hne). exact Hm.
Qed.

Lemma writes_set_edge_data edge d : writes edge (set_edge_data edge d).
Proof.
  intros w edge' Hne. rewrite set_edge_data_spec. simpl.
  apply edge_of_write_other, Hne.
Qed.

Lemma writes_add_sampled_op_index edge : writes edge (add_sampled_op_index edge).
Proof.
  apply writes_bind; [apply steady_writes, steady_edge_data | intros d].
  apply writes_bind; [apply steady_writes, steady_py_len | intros n].
  apply writes_bind; [apply steady_writes, steady_randint | intros i].
  apply writes_bind; [apply steady_writes, steady_edge_data | intros d'].
  apply writes_set_edge_data.
Qed.

Lemma writes_update_ops edge : writes edge (update_ops edge).
Proof.
  apply writes_bind; [apply steady_writes, steady_edge_data | intros d].
  apply writes_bind.
  { apply steady_writes. destruct (op d); [apply steady_ret | apply steady_attr]. }
  intros prims.
  apply writes_bind; [apply steady_writes, steady_attr | intros i].
  apply writes_bind; [apply steady_writes, steady_py_getitem | intros o].
  apply writes_bind.
  { apply writes_bind; [apply steady_writes, steady_edge_data | intros d'].
    apply writes_set_edge_data. }
  intros _.
  apply writes_bind; [apply steady_writes, steady_edge_data | intros d'].
  apply writes_set_edge_data.
Qed.

(** A loop over edges changes no edge it does not visit. *)
Lemma update_edges_loop_unvisited f sc a indices w i :
  (forall j, writes (mkEdgeRef a j) (f (mkEdgeRef a j))) ->
  i ∉ indices ->
  edge_of (update_edges_loop f sc a indices w).2 (mkEdgeRef a i) =
  edge_of w (mkEdgeRef a i).
Proof.
  intros Hf. revert w. induction indices as [|j rest IH]; intros w Hi.
  - reflexivity.
  - apply not_elem_of_cons in Hi as [Hij Hrest].
    simpl. rewrite bind_eq, get_edge_spec.
    destruct (edge_of w (mkEdgeRef a j)) as [e|]; [| reflexivity].
    rewrite bind_eq.
    assert (Hstep : forall m : M unit, writes (mkEdgeRef a j) m ->
              edge_of (m w).2 (mkEdgeRef a i) = edge_of w (mkEdgeRef a i)).
    { intros m Hm. apply Hm. intros [=]. auto. }
    destruct (in_scope sc (tail_node e) (head_node e)).
    + specialize (Hstep _ (Hf j)).
      destruct (f (mkEdgeRef a j) w) as [[u|x] w1]; simpl in *; [| exact Hstep].
      rewrite (IH w1 Hrest). exact Hstep.
    + simpl. apply IH, Hrest.
Qed.

(** ** The two edge functions, as equations *)

Lemma add_sampled_op_index_spec edge w :
  add_sampled_op_index edge w =
    match edge_at w edge with
    | None => (Raise AttributeError, w)
    | Some d =>
        match op d with
        | OpSingle _ => (Raise TypeError, w)
        | OpList ops =>
            if (Z.of_nat (length ops) <=? 0)%Z then (Raise ValueError, w)
            else
              (Ok tt,
               write_edge (drawn w) edge
                 (mkEdgeData (op d) (primitives d)
                    (Some (seed w (draws w) mod Z.of_nat (length ops))%Z)))
        end
    end.
Proof.
  unfold add_sampled_op_index. rewrite bind_eq, edge_data_spec.
  destruct (edge_at w edge) as [d|] eqn:Hd; [| reflexivity].
  rewrite bind_eq. destruct (op d) as [ops|o] eqn:Hop; [| reflexivity].
  simpl. rewrite bind_eq. unfold randint.
  destruct (Z.of_nat (length ops) <=? 0)%Z; [reflexivity |].
  rewrite set_op_index_spec.
  change (edge_at _ edge) with (edge_at w edge). rewrite Hd, Hop. reflexivity.
Qed.

Lemma py_getitem_in_bounds {A} (lst : list A) i w :
  (0 <= i < Z.of_nat (length lst))%Z ->
  exists a, lst !! Z.to_nat i = Some a /\ py_getitem lst i w = (Ok a, w).
Proof.
  intros Hi. unfold py_getitem. cbv zeta.
  replace (i <? 0)%Z with false by lia.
  replace (i <? 0)%Z with false by lia.
  destruct (lst !! Z.to_nat i) as [a|] eqn:Ha.
  - exists a. split; reflexivity.
  - apply lookup_ge_None in Ha. lia.
Qed.

Lemma update_ops_list edge w ops prims i o :
  edge_at w edge = Some (mkEdgeData (OpList ops) prims (Some i)) ->
  py_getitem ops i w = (Ok o, w) ->
  (update_ops edge w).1 = Ok tt /\
  edge_at (update_ops edge w).2 edge =
    Some (mkEdgeData (OpSingle o) (Some ops) (Some i)).
Proof.
  intros Hd Hget. unfold update_ops.
  rewrite bind_eq, edge_data_spec, Hd. simpl.
  rewrite bind_eq. simpl. rewrite bind_eq. simpl.
  rewrite bind_eq, Hget. rewrite bind_eq, set_op_spec, Hd. simpl.
  rewrite set_primitives_spec.
  rewrite edge_at_write_same by (rewrite Hd; eauto). simpl.
  split; [reflexivity |].
  apply edge_at_write_same. rewrite edge_at_write_same by (rewrite Hd; eauto).
  eauto.
Qed.

(** ** The two passes over the edges of a clone *)

Lemma add_sampled_op_index_ok edge w :
  (add_sampled_op_index edge w).1 = Ok tt ->
  exists e d,
    edge_of w edge = Some e /\ indexed d /\ op d = op (data e) /\
    (add_sampled_op_index edge w).2 = write_edge (drawn w) edge d.
Proof.
  rewrite add_sampled_op_index_spec, edge_at_of.
  destruct (edge_of w edge) as [e|]; [simpl | intros [=]].
  destruct (op (data e)) as [ops|single] eqn:Hop; [| intros [=]].
  destruct (Z.of_nat (length ops) <=? 0)%Z eqn:Hlen; [intros [=] | intros _].
  apply Z.leb_gt in Hlen.
  eexists e, _. split; [reflexivity |]. split; [| split; [| reflexivity]].
  - exists ops, (seed w (draws w) mod Z.of_nat (length ops))%Z.
    split; [reflexivity |]. split; [reflexivity |].
    apply Z.mod_pos_bound, Hlen.
  - simpl. symmetry. exact Hop.
Qed.

Lemma add_sampled_op_index_returns edge w e :
  edge_of w edge = Some e -> drawable (data e) ->
  (add_sampled_op_index edge w).1 = Ok tt.
Proof.
  intros He (ops & Hop & Hne).
  rewrite add_sampled_op_index_spec, edge_at_of, He. simpl. rewrite Hop.
  replace (Z.of_nat (length ops) <=? 0)%Z with false; [reflexivity |].
  symmetry. apply Z.leb_gt. destruct ops; [congruence | simpl; lia].
Qed.

Lemma add_sampled_op_index_raises edge w x :
  (add_sampled_op_index edge w).1 = Raise x -> x <> IndexError.
Proof.
  rewrite add_sampled_op_index_spec.
  destruct (edge_at w edge) as [d|]; [| intros [= <-]; discriminate].
  destruct (op d) as [ops|single]; [| intros [= <-]; discriminate].
  destruct (Z.of_nat (length ops) <=? 0)%Z; [| intros [=]].
  intros [= <-]. discriminate.
Qed.

Lemma update_ops_returns edge w e :
  edge_of w edge = Some e -> indexed (data e) ->
  (update_ops edge w).1 = Ok tt.
Proof.
  intros He (ops & k & Hop & Hk & Hin).
  destruct (py_getitem_in_bounds ops k w Hin) as (o & _ & Hget).
  eapply (update_ops_list edge w ops (primitives (data e)) k o); [| exact Hget].
  rewrite edge_at_of, He. simpl.
  destruct (data e) as [slot prims idx]; simpl in *. congruence.
Qed.

Lemma selected_write_same P sc w edge d e :
  edge_of w edge = Some e -> P d ->
  selected P sc (write_edge w edge d) edge.
Proof.
  intros He HP. eexists. split; [apply edge_of_write_same, He |].
  intros _. exact HP.
Qed.

Lemma selected_writes {A} P sc (m : M A) edge edge' w :
  writes edge m -> edge' <> edge ->
  selected P sc w edge' -> selected P sc (m w).2 edge'.
Proof.
  intros Hm Hne (e & He & HP). exists e. split; [| exact HP].
  rewrite Hm by exact Hne. exact He.
Qed.

(** After the first pass, every visited edge the scope selects carries an
    index into its list of primitives. *)
Lemma first_pass_indexed sc a indices w i :
  (update_edges_loop add_sampled_op_index sc a indices w).1 = Ok tt ->
  i ∈ indices \/ selected indexed sc w (mkEdgeRef a i) ->
  selected indexed sc
    (update_edges_loop add_sampled_op_index sc a indices w).2 (mkEdgeRef a i).
Proof.
  revert w. induction indices as [|j rest IH]; intros w.
  - intros _ [Hi|Hi]; [inversion Hi | exact Hi].
  - simpl. rewrite bind_eq, get_edge_spec.
    destruct (edge_of w (mkEdgeRef a j)) as [e|] eqn:He; [| intros [=]].
    rewrite bind_eq.
    destruct (in_scope sc (tail_node e) (head_node e)) eqn:Hsc.
    + pose proof (add_sampled_op_index_ok (mkEdgeRef a j) w) as Hok.
      pose proof (writes_add_sampled_op_index (mkEdgeRef a j) w) as Hfr.
      destruct (add_sampled_op_index (mkEdgeRef a j) w) as [[[]|x] w1];
        [| intros [=]].
      simpl in Hok, Hfr. intros Hrest Hi. apply IH; [exact Hrest |].
      destruct (Hok eq_refl) as (e' & d & He' & Hd & _ & ->).
      destruct (decide (i = j)) as [->|Hij].
      * right. eapply selected_write_same; [exact He' | exact Hd].
      * destruct Hi as [Hi|Hi].
        { left. apply elem_of_cons in Hi as [Hi|Hi]; [contradiction | exact Hi]. }
        right. destruct Hi as (ei & Hei & HP). exists ei. split; [| exact HP].
        rewrite Hfr by (intros [=]; auto). exact Hei.
    + simpl. intros Hrest Hi. apply IH; [exact Hrest |].
      destruct (decide (i = j)) as [->|Hij].
      * right. exists e. split; [exact He |]. rewrite Hsc. intros [=].
      * destruct Hi as [Hi|Hi]; [| right; exact Hi].
        left. apply elem_of_cons in Hi as [Hi|Hi]; [contradiction | exact Hi].
Qed.

(** The first pass returns when every edge it visits and the scope selects
    has a non-empty list of primitives. *)
Lemma first_pass_returns sc a indices w :
  (forall i, i ∈ indices -> selected drawable sc w (mkEdgeRef a i)) ->
  (update_edges_loop add_sampled_op_index sc a indices w).1 = Ok tt.
Proof.
  revert w. induction indices as [|j rest IH]; intros w Hall; [reflexivity |].
  simpl. rewrite bind_eq, get_edge_spec.
  destruct (Hall j (list_elem_of_here _ _)) as (e & He & Hdraw).
  rewrite He, bind_eq.
  destruct (in_scope sc (tail_node e) (head_node e)) eqn:Hsc.
  - pose proof (add_sampled_op_index_returns (mkEdgeRef a j) w e He (Hdraw eq_refl)) as Hret.
    pose proof (add_sampled_op_index_ok (mkEdgeRef a j) w Hret) as Hok.
    pose proof (writes_add_sampled_op_index (mkEdgeRef a j) w) as Hfr.
    destruct (add_sampled_op_index (mkEdgeRef a j) w) as [[[]|x] w1];
      [| discriminate Hret].
    simpl in Hok, Hfr. apply IH. intros i Hi.
    destruct Hok as (e' & d & He' & _ & Hop & ->).
    destruct (decide (i = j)) as [->|Hij].
    + eapply selected_write_same; [exact He' |].
      assert (e' = e) by congruence. subst e'.
      destruct (Hdraw eq_refl) as (ops & Hops & Hne).
      exists ops. split; [congruence | exact Hne].
    + destruct (Hall i (list_elem_of_further _ _ _ Hi)) as (ei & Hei & HP).
      exists ei. split; [| exact HP].
      rewrite Hfr by (intros [=]; auto). exact Hei.
  - simpl. apply IH. intros i Hi. apply Hall. right. exact Hi.
Qed.

Lemma first_pass_raises sc a indices w x :
  (update_edges_loop add_sampled_op_index sc a indices w).1 = Raise x ->
  x <> IndexError.
Proof.
  revert w. induction indices as [|j rest IH]; intros w; [intros [=] |].
  simpl. rewrite bind_eq, get_edge_spec.
  destruct (edge_of w (mkEdgeRef a j)) as [e|]; [| intros [= <-]; discriminate].
  rewrite bind_eq.
  destruct (in_scope sc (tail_node e) (head_node e)).
  - pose proof (add_sampled_op_index_raises (mkEdgeRef a j) w) as Hr.
    destruct (add_sampled_op_index (mkEdgeRef a j) w) as [[[]|y] w1].
    + apply IH.
    + simpl. intros [= <-]. apply Hr. reflexivity.
  - simpl. apply IH.
Qed.

(** The second pass returns on edges that carry an index in bounds: no
    access [primitives[edge.data.op_index]] of it fails. *)
Lemma second_pass_returns sc a indices w :
  NoDup indices ->
  (forall i, i ∈ indices -> selected indexed sc w (mkEdgeRef a i)) ->
  (update_edges_loop update_ops sc a indices w).1 = Ok tt.
Proof.
  revert w. induction indices as [|j rest IH]; intros w Hnd Hall; [reflexivity |].
  apply NoDup_cons in Hnd as [Hj Hnd].
  simpl. rewrite bind_eq, get_edge_spec.
  destruct (Hall j (list_elem_of_here _ _)) as (e & He & Hidx).
  rewrite He, bind_eq.
  assert (Hrest : forall (m : M unit), writes (mkEdgeRef a j) m ->
            forall i, i ∈ rest -> selected indexed sc (m w).2 (mkEdgeRef a i)).
  { intros m Hm i Hi. eapply selected_writes; [exact Hm | |].
    - intros [=]. subst i. contradiction.
    - apply Hall. right. exact Hi. }
  destruct (in_scope sc (tail_node e) (head_node e)) eqn:Hsc.
  - pose proof (update_ops_returns (mkEdgeRef a j) w e He (Hidx eq_refl)) as Hret.
    specialize (Hrest _ (writes_update_ops (mkEdgeRef a j))).
    destruct (update_ops (mkEdgeRef a j) w) as [[[]|x] w1];
      [| discriminate Hret].
    apply IH; [exact Hnd | exact Hrest].
  - simpl. apply IH; [exact Hnd |]. intros i Hi. apply Hall. right. exact Hi.
Qed.

Lemma update_edges_spec a f sc private_edge_data w :
  update_edges a f sc private_edge_data w =
    match heap w !! a with
    | Some g => update_edges_loop f sc a (seq 0 (length (edges g))) w
    | None => (Raise AttributeError, w)
    end.
Proof.
  unfold update_edges. rewrite bind_eq. unfold deref.
  destruct (heap w !! a); reflexivity.
Qed.

Lemma prepare_discretization_spec a w :
  prepare_discretization a w =
    match heap w !! a with
    | Some g =>
        (Ok tt,
         mkWorld (<[a := prepare g]> (heap w)) (seed w) (draws w) (optimizer w))
    | None => (Raise AttributeError, w)
    end.
Proof.
  unfold prepare_discretization. rewrite bind_eq. unfold deref.
  destruct (heap w !! a); reflexivity.
Qed.

(** Once the first pass has returned, the second one returns too. *)
Lemma second_pass_after_first a sc w :
  (update_edges a add_sampled_op_index sc false w).1 = Ok tt ->
  (update_edges a update_ops sc true
     (update_edges a add_sampled_op_index sc false w).2).1 = Ok tt.
Proof.
  rewrite (update_edges_spec a add_sampled_op_index).
  destruct (heap w !! a) as [g|] eqn:Hg; [| intros [=]].
  intros Hok.
  set (w1 := (update_edges_loop add_sampled_op_index sc a
                (seq 0 (length (edges g))) w).2) in *.
  destruct (touches_update_edges_loop add_sampled_op_index sc a
              (seq 0 (length (edges g)))
              (fun i => touches_add_sampled_op_index (mkEdgeRef a i)) w)
    as (Hlen & _ & _).
  fold w1 in Hlen.
  rewrite update_edges_spec.
  destruct (heap w1 !! a) as [g'|] eqn:Hg'.
  2: { apply lookup_ge_None in Hg'. apply lookup_lt_Some in Hg. lia. }
  apply second_pass_returns; [apply NoDup_seq |].
  intros i Hi. apply first_pass_indexed; [exact Hok |].
  left. apply elem_of_seq. split; [lia |]. simpl.
  destruct (decide (i < length (edges g))) as [Hlt|Hge]; [exact Hlt | exfalso].
  assert (Hun : edge_of w1 (mkEdgeRef a i) = edge_of w (mkEdgeRef a i)).
  { apply update_edges_loop_unvisited.
    - intros j. apply writes_add_sampled_op_index.
    - rewrite elem_of_seq. lia. }
  unfold edge_of in Hun. simpl in Hun. rewrite Hg, Hg' in Hun.
  apply elem_of_seq in Hi.
  destruct (lookup_lt_is_Some_2 (edges g') i) as [e He]; [lia |].
  rewrite He in Hun. symmetry in Hun. apply lookup_lt_Some in Hun. lia.
Qed.

(** The sampler returns the clone it made, and whatever it raises, it is
    no [IndexError]. *)
Lemma sample_random_architecture_outcome space sc w :
  match (sample_random_architecture space sc w).1 with
  | Ok a => a = length (heap w)
  | Raise x => x <> IndexError
  end.
Proof.
  destruct (sample_random_architecture_frame space sc w) as (_ & _ & Ha).
  destruct (sample_random_architecture space sc w).1 as [a|x] eqn:Hres.
  { apply (Ha a eq_refl). }
  revert Hres. unfold sample_random_architecture. rewrite bind_eq.
  pose proof (clone_spec space w) as Hc.
  destruct (heap w !! space) as [g|]; rewrite Hc;
    [| simpl; intros [= <-]; discriminate].
  rewrite bind_eq, prepare_discretization_spec. simpl.
  rewrite lookup_app_r by lia. rewrite Nat.sub_diag. simpl.
  rewrite bind_eq.
  match goal with
  | |- context [update_edges ?a add_sampled_op_index sc false ?w2] =>
      pose proof (second_pass_after_first a sc w2) as Hsecond;
      pose proof (update_edges_spec a add_sampled_op_index sc false w2) as Hspec;
      destruct (update_edges a add_sampled_op_index sc false w2) as [[[]|y] w3];
      [| match type of Hspec with
         | context [match ?t with _ => _ end] => destruct t
         end ]
  end.
  - simpl in Hsecond. specialize (Hsecond eq_refl). rewrite bind_eq.
    match goal with
    | |- context [update_edges ?a update_ops sc true w3] =>
        destruct (update_edges a update_ops sc true w3) as [[[]|z] w4]
    end; simpl in *; [intros [=] | discriminate Hsecond].
  - simpl. intros [= <-]. apply (f_equal fst) in Hspec. symmetry in Hspec.
    exact (first_pass_raises _ _ _ _ _ Hspec).
  - simpl. intros [= <-]. injection Hspec as -> _. discriminate.
Qed.

(** The sampler returns when, after [prepare_discretization], every edge
    the scope selects has a non-empty list of primitives. *)
Lemma sample_random_architecture_returns space sc w g :
  heap w !! space = Some g ->
  (forall e, e ∈ edges (prepare g) ->
     in_scope sc (tail_node e) (head_node e) = true -> drawable (data e)) ->
  (sample_random_architecture space sc w).1 = Ok (length (heap w)).
Proof.
  intros Hg Hedges.
  destruct (sample_random_architecture_frame space sc w) as (_ & _ & Ha).
  destruct (sample_random_architecture space sc w).1 as [a|x] eqn:Hres.
  { f_equal. apply (Ha a eq_refl). }
  exfalso. revert Hres. unfold sample_random_architecture. rewrite bind_eq.
  pose proof (clone_spec space w) as Hc. rewrite Hg in Hc. rewrite Hc.
  rewrite bind_eq, prepare_discretization_spec. simpl.
  rewrite lookup_app_r by lia. rewrite Nat.sub_diag. simpl.
  rewrite bind_eq.
  set (a := length (heap w)).
  set (w2 := mkWorld (<[a := prepare g]> (heap w ++ [g])) (seed w) (draws w)
               (optimizer w)).
  assert (Ha2 : heap w2 !! a = Some (prepare g)).
  { simpl. apply list_lookup_insert_eq. rewrite length_app. simpl. unfold a. lia. }
  assert (Hfirst : (update_edges a add_sampled_op_index sc false w2).1 = Ok tt).
  { rewrite update_edges_spec, Ha2. apply first_pass_returns.
    intros i Hi. apply elem_of_seq in Hi.
    destruct (lookup_lt_is_Some_2 (edges (prepare g)) i) as [e He]; [lia |].
    exists e. split.
    - unfold edge_of. simpl graph_of. rewrite Ha2. exact He.
    - apply Hedges. eapply list_elem_of_lookup_2. exact He. }
  pose proof (second_pass_after_first a sc w2 Hfirst) as Hsecond.
  destruct (update_edges a add_sampled_op_index sc false w2) as [[[]|y] w3];
    [| discriminate Hfirst].
  rewrite bind_eq. simpl in Hsecond.
  destruct (update_edges a update_ops sc true w3) as [[[]|z] w4];
    [| discriminate Hsecond].
  simpl. intros [=].
Qed.

(** ** The methods of the optimizer, as equations *)

Lemma _update_history_spec child w :
  _update_history child w =
    (Ok tt,
     mkWorld (heap w) (seed w) (draws w)
       (with_history (optimizer w) (history_after child (history (optimizer w))))).
Proof.
  unfold _update_history, history_after. rewrite bind_eq. simpl.
  destruct (length (history (optimizer w)) <? 100); reflexivity.
Qed.

Lemma adapt_search_space_spec space sc w :
  adapt_search_space space sc w =
    match heap w !! space with
    | None => (Raise AttributeError, w)
    | Some g =>
        if QUERYABLE g then
          (Ok tt,
           mkWorld (heap w ++ [g]) (seed w) (draws w)
             (with_scope (with_search_space (optimizer w) (length (heap w)))
                (if truthy sc then sc else OPTIMIZER_SCOPE g)))
        else (Raise AssertionError, w)
    end.
Proof.
  unfold adapt_search_space. rewrite bind_eq. unfold deref at 1.
  destruct (heap w !! space) as [g|] eqn:Hg; [| reflexivity].
  destruct (QUERYABLE g); [| reflexivity].
  rewrite bind_eq. pose proof (clone_spec space w) as Hc.
  rewrite Hg in Hc. rewrite Hc. reflexivity.
Qed.

Lemma new_epoch_spec e w :
  new_epoch e w =
    match search_space (optimizer w), scope (optimizer w) with
    | Some space, Some sc =>
        match sample_random_architecture space sc w with
        | (Ok a, w1) =>
            match heap w1 !! a with
            | Some g =>
                (Ok tt,
                 mkWorld (heap w1) (seed w1) (draws w1)
                   (recorded (optimizer w)
                      (mkModel a (query g (performance_metric (optimizer w))
                                          (dataset (optimizer w))))))
            | None => (Raise AttributeError, w1)
            end
        | (Raise x, w1) => (Raise x, w1)
        end
    | _, _ => (Raise AttributeError, w)
    end.
Proof.
  unfold new_epoch. rewrite bind_eq. simpl.
  destruct (search_space (optimizer w)) as [space|]; [| reflexivity].
  rewrite bind_eq. simpl.
  destruct (scope (optimizer w)) as [sc|]; [| reflexivity].
  rewrite bind_eq. simpl. rewrite bind_eq.
  destruct (sample_random_architecture_frame space sc w) as (_ & Hopt & _).
  destruct (sample_random_architecture space sc w) as [[a|x] w1]; [| reflexivity].
  simpl in Hopt. rewrite bind_eq. simpl.
  unfold arch_query. rewrite !bind_eq. unfold deref.
  destruct (heap w1 !! a) as [g|]; [| reflexivity].
  simpl. rewrite bind_eq. simpl. rewrite bind_eq. simpl.
  rewrite _update_history_spec. simpl.
  rewrite Hopt. reflexivity.
Qed.

Lemma get_final_architecture_spec w :
  get_final_architecture w =
    match sampled_archs (optimizer w) with
    | [] => (Raise ValueError, w)
    | x :: l => (Ok (arch (max_from accuracy x l)), w)
    end.
Proof.
  unfold get_final_architecture. rewrite bind_eq. simpl.
  destruct (sampled_archs (optimizer w)); reflexivity.
Qed.

(** ** Consistency is kept by every call *)

Lemma consistent_fresh w config wo lc gc :
  optimizer w = __init__ config wo lc gc -> consistent w.
Proof.
  intros Ho. split; rewrite Ho; simpl; try reflexivity.
  - intros m Hm. inversion Hm.
  - intros m Hm. inversion Hm.
Qed.

(** Growing the heap does not disturb a consistent optimizer. *)
Lemma consistent_extend w w' :
  consistent w ->
  optimizer w' = optimizer w ->
  heap w `prefix_of` heap w' ->
  consistent w'.
Proof.
  intros [H1 H2 H3 H4 H5 H6] Ho Hh. split; rewrite Ho; try assumption.
  intros m Hm. destruct (H6 m Hm) as (g & Hg & Hacc).
  exists g. split; [| exact Hacc].
  eapply prefix_lookup_Some; eassumption.
Qed.

Lemma consistent_recorded w w1 a g :
  consistent w ->
  heap w `prefix_of` heap w1 ->
  heap w1 !! a = Some g ->
  consistent
    (mkWorld (heap w1) (seed w1) (draws w1)
       (recorded (optimizer w)
          (mkModel a (query g (performance_metric (optimizer w))
                              (dataset (optimizer w)))))).
Proof.
  intros [H1 H2 H3 H4 H5 H6] Hh Hg. rewrite H1.
  set (model := mkModel a (query g VAL_ACCURACY (dataset (optimizer w)))).
  split; simpl.
  - exact H1.
  - rewrite history_after_length, H2, length_app.
    change (length [model]) with 1. lia.
  - apply history_after_submseteq, H3.
  - rewrite length_app. change (length [model]) with 1. intros Hn.
    rewrite <- H4 by lia. unfold history_after.
    replace (length (history (optimizer w)) <? 100) with true; [reflexivity |].
    symmetry. apply Nat.ltb_lt. lia.
  - intros m Hm. apply elem_of_app in Hm as [Hm|Hm].
    + destruct (H5 m Hm) as (p & Hp & Hle).
      destruct (history_after_keeps model _ p Hp) as (q & Hq & Hle').
      exists q. split; [exact Hq | lia].
    + apply list_elem_of_singleton in Hm as ->.
      apply history_after_child.
  - intros m Hm. apply elem_of_app in Hm as [Hm|Hm].
    + destruct (H6 m Hm) as (g' & Hg' & Hacc).
      exists g'. split; [| exact Hacc].
      eapply prefix_lookup_Some; eassumption.
    + apply list_elem_of_singleton in Hm as ->.
      exists g. split; [exact Hg | reflexivity].
Qed.

Lemma consistent_adapt_search_space space sc w :
  consistent w -> consistent (adapt_search_space space sc w).2.
Proof.
  intros Hw. rewrite adapt_search_space_spec.
  destruct (heap w !! space) as [g|]; [| exact Hw].
  destruct (QUERYABLE g); [| exact Hw].
  destruct Hw as [H1 H2 H3 H4 H5 H6]. split; simpl; try assumption.
  intros m Hm. destruct (H6 m Hm) as (g' & Hg' & Hacc).
  exists g'. split; [| exact Hacc].
  apply lookup_app_l_Some, Hg'.
Qed.

Lemma consistent_new_epoch e w :
  consistent w -> consistent (new_epoch e w).2.
Proof.
  intros Hw. rewrite new_epoch_spec.
  destruct (search_space (optimizer w)) as [space|]; [| exact Hw].
  destruct (scope (optimizer w)) as [sc|]; [| exact Hw].
  destruct (sample_random_architecture_frame space sc w) as (Hh & Ho & _).
  destruct (sample_random_architecture space sc w) as [[a|x] w1]; simpl in *.
  - destruct (heap w1 !! a) as [g|] eqn:Hg.
    + apply consistent_recorded; assumption.
    + eapply consistent_extend; eassumption.
  - eapply consistent_extend; eassumption.
Qed.

Lemma consistent_call c w : consistent w -> consistent (call c w).2.
Proof.
  destruct c; [apply consistent_adapt_search_space | apply consistent_new_epoch].
Qed.

Lemma consistent_run cs w : consistent w -> consistent (run cs w).2.
Proof.
  revert w. induction cs as [|c cs IH]; intros w Hw; [exact Hw |].
  simpl. rewrite bind_eq.
  pose proof (consistent_call c w Hw) as Hc.
  destruct (call c w) as [[[]|x] w1]; simpl in *; [apply IH, Hc | exact Hc].
Qed.

(** ** What one call changes *)

Lemma same_settings_refl o : same_settings o o.
Proof. repeat split. Qed.

Lemma same_settings_trans o1 o2 o3 :
  same_settings o1 o2 -> same_settings o2 o3 -> same_settings o1 o3.
Proof.
  intros (A1 & A2 & A3 & A4 & A5) (B1 & B2 & B3 & B4 & B5).
  repeat split; congruence.
Qed.

Lemma same_settings_recorded o model : same_settings o (recorded o model).
Proof. repeat split. Qed.

Lemma extends_adapt_search_space space sc : extends (adapt_search_space space sc).
Proof.
  intros w. rewrite adapt_search_space_spec.
  destruct (heap w !! space) as [g|]; [| reflexivity].
  destruct (QUERYABLE g); [| reflexivity].
  simpl. apply prefix_app_r. reflexivity.
Qed.

Lemma extends_new_epoch e : extends (new_epoch e).
Proof.
  intros w. rewrite new_epoch_spec.
  destruct (search_space (optimizer w)) as [space|]; [| reflexivity].
  destruct (scope (optimizer w)) as [sc|]; [| reflexivity].
  destruct (sample_random_architecture_frame space sc w) as (Hh & _ & _).
  destruct (sample_random_architecture space sc w) as [[a|x] w1]; simpl in *.
  - destruct (heap w1 !! a); exact Hh.
  - exact Hh.
Qed.

Lemma extends_call c : extends (call c).
Proof.
  destruct c; [apply extends_adapt_search_space | apply extends_new_epoch].
Qed.

Lemma extends_run cs : extends (run cs).
Proof.
  induction cs as [|c cs IH]; simpl.
  - apply steady_extends, steady_ret.
  - apply extends_bind; [apply extends_call | intros _; exact IH].
Qed.

(** A call that raises leaves the optimizer as it was. *)
Lemma call_raise c w x :
  (call c w).1 = Raise x -> optimizer (call c w).2 = optimizer w.
Proof.
  destruct c as [space sc|e]; simpl.
  - rewrite adapt_search_space_spec.
    destruct (heap w !! space) as [g|]; [| reflexivity].
    destruct (QUERYABLE g); [intros [=] | reflexivity].
  - rewrite new_epoch_spec.
    destruct (search_space (optimizer w)) as [space|]; [| reflexivity].
    destruct (scope (optimizer w)) as [sc|]; [| reflexivity].
    destruct (sample_random_architecture_frame space sc w) as (_ & Ho & _).
    destruct (sample_random_architecture space sc w) as [[a|y] w1]; simpl in *.
    + destruct (heap w1 !! a); [intros [=] | intros _; exact Ho].
    + intros _; exact Ho.
Qed.

Lemma call_settings c w :
  same_settings (optimizer w) (optimizer (call c w).2).
Proof.
  destruct c as [space sc|e]; simpl.
  - rewrite adapt_search_space_spec.
    destruct (heap w !! space) as [g|]; [| apply same_settings_refl].
    destruct (QUERYABLE g); [| apply same_settings_refl].
    repeat split.
  - rewrite new_epoch_spec.
    destruct (search_space (optimizer w)) as [space|]; [| apply same_settings_refl].
    destruct (scope (optimizer w)) as [sc|]; [| apply same_settings_refl].
    destruct (sample_random_architecture_frame space sc w) as (_ & Ho & _).
    destruct (sample_random_architecture space sc w) as [[a|y] w1]; simpl in *.
    + destruct (heap w1 !! a); simpl; [apply same_settings_recorded |].
      rewrite Ho. apply same_settings_refl.
    + rewrite Ho. apply same_settings_refl.
Qed.

(** A call that returns adds one sampled model if it is an epoch, none
    otherwise. *)
Lemma call_sampled c w :
  (call c w).1 = Ok tt ->
  length (sampled_archs (optimizer (call c w).2)) =
  (if is_epoch c then 1 else 0) + length (sampled_archs (optimizer w)).
Proof.
  destruct c as [space sc|e]; simpl.
  - rewrite adapt_search_space_spec.
    destruct (heap w !! space) as [g|]; [| intros [=]].
    destruct (QUERYABLE g); [reflexivity | intros [=]].
  - rewrite new_epoch_spec.
    destruct (search_space (optimizer w)) as [space|]; [| intros [=]].
    destruct (scope (optimizer w)) as [sc|]; [| intros [=]].
    destruct (sample_random_architecture space sc w) as [[a|y] w1]; [| intros [=]].
    destruct (heap w1 !! a); [| intros [=]].
    intros _. simpl. rewrite length_app. simpl. lia.
Qed.

Lemma call_not_epoch c w :
  is_epoch c = false ->
  sampled_archs (optimizer (call c w).2) = sampled_archs (optimizer w).
Proof.
  destruct c as [space sc|e]; [intros _ | intros [=]]. simpl.
  rewrite adapt_search_space_spec.
  destruct (heap w !! space) as [g|]; [| reflexivity].
  destruct (QUERYABLE g); reflexivity.
Qed.

(** ** What a run changes *)

Lemma run_cons c cs w :
  run (c :: cs) w =
    match call c w with
    | (Ok _, w1) => run cs w1
    | (Raise x, w1) => (Raise x, w1)
    end.
Proof. reflexivity. Qed.

Lemma run_settings cs w :
  same_settings (optimizer w) (optimizer (run cs w).2).
Proof.
  revert w. induction cs as [|c cs IH]; intros w; [apply same_settings_refl |].
  rewrite run_cons. pose proof (call_settings c w) as Hc.
  destruct (call c w) as [[u|x] w1]; simpl in *; [| exact Hc].
  eapply same_settings_trans; [exact Hc | apply IH].
Qed.

Lemma run_sampled cs w :
  (run cs w).1 = Ok tt ->
  length (sampled_archs (optimizer (run cs w).2)) =
  epochs cs + length (sampled_archs (optimizer w)).
Proof.
  revert w. induction cs as [|c cs IH]; intros w; [reflexivity |].
  rewrite run_cons. pose proof (call_sampled c w) as Hc.
  destruct (call c w) as [[[]|x] w1]; simpl in *; [| intros [=]].
  intros Hr. rewrite (IH w1 Hr), Hc by reflexivity. lia.
Qed.

Lemma run_no_epoch cs w :
  epochs cs = 0 ->
  sampled_archs (optimizer (run cs w).2) = sampled_archs (optimizer w).
Proof.
  revert w. induction cs as [|c cs IH]; intros w; [reflexivity |].
  simpl epochs. intros He. rewrite run_cons.
  assert (Hc : is_epoch c = false) by (destruct (is_epoch c); [simpl in He; lia | reflexivity]).
  rewrite Hc in He. simpl in He.
  pose proof (call_not_epoch c w Hc) as Hs.
  destruct (call c w) as [[u|x] w1]; simpl in *; [| exact Hs].
  rewrite (IH w1 He). exact Hs.
Qed.

(** ** What an epoch leaves alone *)

Lemma new_epoch_frame e w :
  same_settings (optimizer w) (optimizer (new_epoch e w).2) /\
  search_space (optimizer (new_epoch e w).2) = search_space (optimizer w) /\
  scope (optimizer (new_epoch e w).2) = scope (optimizer w) /\
  heap w `prefix_of` heap (new_epoch e w).2 /\
  ((new_epoch e w).1 = Ok tt ->
   length (heap (new_epoch e w).2) = S (length (heap w)) /\
   exists acc,
     optimizer (new_epoch e w).2 =
       recorded (optimizer w) (mkModel (length (heap w)) acc)).
Proof.
  split; [apply (call_settings (CallNewEpoch e)) |].
  pose proof (extends_new_epoch e w) as Hext.
  rewrite new_epoch_spec in *.
  destruct (search_space (optimizer w)) as [space|] eqn:Hsp.
  2: { simpl in *. repeat (split; [solve [assumption | reflexivity] |]).
       intros [=]. }
  destruct (scope (optimizer w)) as [sc|] eqn:Hsc.
  2: { simpl in *. repeat (split; [solve [assumption | reflexivity] |]).
       intros [=]. }
  destruct (sample_random_architecture_frame space sc w) as (_ & Ho & Ha).
  destruct (sample_random_architecture space sc w) as [[a|x] w1]; simpl in *.
  - destruct (Ha a eq_refl) as [Haw Hlen].
    destruct (heap w1 !! a) as [g|]; simpl in *; subst a.
    + split; [exact Hsp |]. split; [exact Hsc |]. split; [exact Hext |].
      intros _. split; [exact Hlen |]. eexists. reflexivity.
    + rewrite Ho.
      split; [exact Hsp |]. split; [exact Hsc |]. split; [exact Hext |].
      intros [=].
  - rewrite Ho.
    split; [exact Hsp |]. split; [exact Hsc |]. split; [exact Hext |].
    intros [=].
Qed.

(** ** Epochs that return *)

(** An epoch returns when the optimizer has a search space in which, after
    [prepare_discretization], every edge the scope selects has a non-empty
    list of primitives. *)
Lemma new_epoch_returns e w space sc g :
  search_space (optimizer w) = Some space ->
  scope (optimizer w) = Some sc ->
  heap w !! space = Some g ->
  (forall ed, ed ∈ edges (prepare g) ->
     in_scope sc (tail_node ed) (head_node ed) = true -> drawable (data ed)) ->
  (new_epoch e w).1 = Ok tt.
Proof.
  intros Hsp Hsc Hg Hedges. rewrite new_epoch_spec, Hsp, Hsc.
  pose proof (sample_random_architecture_returns space sc w g Hg Hedges) as Hret.
  destruct (sample_random_architecture_frame space sc w) as (_ & _ & Ha).
  destruct (sample_random_architecture space sc w) as [[a|x] w1];
    [| discriminate Hret].
  simpl in *. destruct (Ha a eq_refl) as [-> Hlen].
  destruct (heap w1 !! length (heap w)) as [g'|] eqn:Hlook; [reflexivity |].
  apply lookup_ge_None in Hlook. lia.
Qed.

(** So does every further epoch. *)
Lemma epochs_return es w space sc g :
  search_space (optimizer w) = Some space ->
  scope (optimizer w) = Some sc ->
  heap w !! space = Some g ->
  (forall ed, ed ∈ edges (prepare g) ->
     in_scope sc (tail_node ed) (head_node ed) = true -> drawable (data ed)) ->
  (run (map CallNewEpoch es) w).1 = Ok tt.
Proof.
  intros Hsp Hsc Hg Hedges. revert w Hsp Hsc Hg.
  induction es as [|e es IH]; intros w Hsp Hsc Hg; [reflexivity |].
  simpl map. rewrite run_cons. simpl call.
  pose proof (new_epoch_returns e w space sc g Hsp Hsc Hg Hedges) as Hret.
  destruct (new_epoch_frame e w) as (_ & Hsp' & Hsc' & Hext & _).
  destruct (new_epoch e w) as [[[]|x] w1]; [| discriminate Hret].
  simpl in *. apply IH.
  - rewrite Hsp'. exact Hsp.
  - rewrite Hsc'. exact Hsc.
  - eapply prefix_lookup_Some; eassumption.
Qed.

(** ** The claims about the best candidate and the history *)

(** C1. After any run from a fresh optimizer in which at least one
    [new_epoch] call has returned, [get_final_architecture] returns the
    architecture of a sampled model whose accuracy, the one the benchmark
    gave for that architecture under [VAL_ACCURACY] on the configured
    dataset, is maximal over all of [sampled_archs]. *)
Theorem get_final_architecture_best cs w config wo lc gc :
  optimizer w = __init__ config wo lc gc ->
  (run cs w).1 = Ok tt ->
  1 <= epochs cs ->
  exists m g,
    get_final_architecture (run cs w).2 = (Ok (arch m), (run cs w).2) /\
    m ∈ sampled_archs (optimizer (run cs w).2) /\
    heap (run cs w).2 !! arch m = Some g /\
    accuracy m = query g VAL_ACCURACY (config_dataset config) /\
    forall m', m' ∈ sampled_archs (optimizer (run cs w).2) ->
      (accuracy m' <= accuracy m)%Z.
Proof.
  intros Ho Hr He.
  pose proof (consistent_run cs w (consistent_fresh _ _ _ _ _ Ho)) as Hc.
  pose proof (run_sampled cs w Hr) as Hn.
  destruct (run_settings cs w) as (_ & _ & _ & _ & Hd).
  rewrite get_final_architecture_spec.
  destruct (sampled_archs (optimizer (run cs w).2)) as [|x l] eqn:Hs.
  { simpl in Hn. lia. }
  destruct (max_from_spec accuracy x l) as [Hin Hmax].
  destruct (sampled_queried _ Hc (max_from accuracy x l)) as (g & Hg & Hacc).
  { rewrite Hs. exact Hin. }
  exists (max_from accuracy x l), g.
  split; [reflexivity |]. split; [exact Hin |]. split; [exact Hg |].
  split; [| exact Hmax].
  rewrite Hacc, Hd, Ho. reflexivity.
Qed.

(** C3. After a run from a fresh optimizer with [n] calls of [new_epoch],
    the history has [min n 100] entries, so never more than 100; and
    [_update_history] keeps a history of 100 entries at 100 entries, whether
    it overwrites one or not. *)
Theorem history_length_bounded cs w config wo lc gc :
  optimizer w = __init__ config wo lc gc ->
  (run cs w).1 = Ok tt ->
  length (history (optimizer (run cs w).2)) = min (epochs cs) 100 /\
  length (history (optimizer (run cs w).2)) <= 100 /\
  forall child w',
    length (history (optimizer w')) = 100 ->
    length (history (optimizer (_update_history child w').2)) = 100.
Proof.
  intros Ho Hr.
  pose proof (consistent_run cs w (consistent_fresh _ _ _ _ _ Ho)) as Hc.
  pose proof (run_sampled cs w Hr) as Hn.
  rewrite Ho in Hn. simpl in Hn.
  rewrite (history_bounded _ Hc), Hn.
  split; [f_equal; lia |]. split; [lia |].
  intros child w' Hfull. rewrite _update_history_spec. simpl.
  rewrite history_after_length, Hfull. reflexivity.
Qed.

(** C5. After a run from a fresh optimizer in which at least one
    [new_epoch] call has returned, the history holds a sampled model whose
    accuracy is the maximum over all sampled models; and whatever entry
    [_update_history] drops, an entry at least as accurate is in the
    history afterwards. *)
Theorem history_keeps_best cs w config wo lc gc :
  optimizer w = __init__ config wo lc gc ->
  (run cs w).1 = Ok tt ->
  1 <= epochs cs ->
  (exists p,
     p ∈ history (optimizer (run cs w).2) /\
     p ∈ sampled_archs (optimizer (run cs w).2) /\
     forall m, m ∈ sampled_archs (optimizer (run cs w).2) ->
       (accuracy m <= accuracy p)%Z) /\
  forall child w' m,
    m ∈ history (optimizer w') ->
    exists p,
      p ∈ history (optimizer (_update_history child w').2) /\
      (accuracy m <= accuracy p)%Z.
Proof.
  intros Ho Hr He.
  pose proof (consistent_run cs w (consistent_fresh _ _ _ _ _ Ho)) as Hc.
  pose proof (run_sampled cs w Hr) as Hn.
  split.
  - destruct (sampled_archs (optimizer (run cs w).2)) as [|x l] eqn:Hs.
    { simpl in Hn. lia. }
    destruct (max_from_spec accuracy x l) as [Hin Hmax].
    destruct (history_best _ Hc (max_from accuracy x l)) as (p & Hp & Hle).
    { rewrite Hs. exact Hin. }
    exists p. split; [exact Hp |]. split.
    + rewrite <- Hs. eapply elem_of_submseteq; [exact Hp |].
      apply (history_sampled _ Hc).
    + intros m Hm. specialize (Hmax m Hm). lia.
  - intros child w' m Hm. rewrite _update_history_spec. simpl.
    apply history_after_keeps, Hm.
Qed.

(** C2, as the code has it. After a run from a fresh optimizer with [n]
    calls of [new_epoch], the history is a bounded selection of the sampled
    models with bound 100: it is all [n] sampled models, in sampling order,
    while [n <= 100]; from then on it has exactly 100 entries, all of them
    sampled models, and every sampled model is matched or beaten by one of
    them. It is maintained by a linear scan: on a full history the new
    model overwrites the first entry of strictly lower accuracy, if any. *)
Theorem history_bounded_selection cs w config wo lc gc :
  optimizer w = __init__ config wo lc gc ->
  (run cs w).1 = Ok tt ->
  length (sampled_archs (optimizer (run cs w).2)) = epochs cs /\
  (epochs cs <= 100 ->
   history (optimizer (run cs w).2) = sampled_archs (optimizer (run cs w).2)) /\
  (100 <= epochs cs -> length (history (optimizer (run cs w).2)) = 100) /\
  history (optimizer (run cs w).2) ⊆+ sampled_archs (optimizer (run cs w).2) /\
  (forall m, m ∈ sampled_archs (optimizer (run cs w).2) ->
     exists p, p ∈ history (optimizer (run cs w).2) /\
               (accuracy m <= accuracy p)%Z) /\
  forall child w',
    100 <= length (history (optimizer w')) ->
    history (optimizer (_update_history child w').2) =
      match list_find (fun p => (accuracy p < accuracy child)%Z)
                      (history (optimizer w')) with
      | Some (i, _) => <[i := child]> (history (optimizer w'))
      | None => history (optimizer w')
      end.
Proof.
  intros Ho Hr.
  pose proof (consistent_run cs w (consistent_fresh _ _ _ _ _ Ho)) as Hc.
  pose proof (run_sampled cs w Hr) as Hn.
  rewrite Ho in Hn. simpl in Hn. rewrite Nat.add_0_r in Hn.
  split; [exact Hn |].
  split; [intros Hle; apply (history_all _ Hc); lia |].
  split; [intros Hge; rewrite (history_bounded _ Hc); lia |].
  split; [apply (history_sampled _ Hc) |].
  split; [apply (history_best _ Hc) |].
  intros child w' Hfull. rewrite _update_history_spec. simpl.
  unfold history_after.
  replace (length (history (optimizer w')) <? 100) with false
    by (symmetry; apply Nat.ltb_ge; exact Hfull).
  apply history_scan_find.
Qed.

(** C6. For a search space that exists, [adapt_search_space] raises, and
    then an [AssertionError], exactly when [QUERYABLE] is false. When it is
    true the optimizer stores a clone, a new object equal to the search
    space, and sets its scope to the given one if that is truthy and to the
    search space's [OPTIMIZER_SCOPE] otherwise. When it is false nothing
    at all has changed, so attributes that were unset are still unset. *)
Theorem adapt_search_space_queryable space sc w g :
  heap w !! space = Some g ->
  ((adapt_search_space space sc w).1 = Raise AssertionError <->
   QUERYABLE g = false) /\
  (forall x, (adapt_search_space space sc w).1 = Raise x -> x = AssertionError) /\
  (QUERYABLE g = true ->
   (adapt_search_space space sc w).1 = Ok tt /\
   search_space (optimizer (adapt_search_space space sc w).2) =
     Some (length (heap w)) /\
   length (heap w) <> space /\
   heap (adapt_search_space space sc w).2 !! length (heap w) = Some g /\
   scope (optimizer (adapt_search_space space sc w).2) =
     Some (if truthy sc then sc else OPTIMIZER_SCOPE g)) /\
  (QUERYABLE g = false ->
   (adapt_search_space space sc w).2 = w /\
   (search_space (optimizer w) = None ->
    search_space (optimizer (adapt_search_space space sc w).2) = None) /\
   (scope (optimizer w) = None ->
    scope (optimizer (adapt_search_space space sc w).2) = None)).
Proof.
  intros Hg. rewrite adapt_search_space_spec, Hg.
  destruct (QUERYABLE g); simpl.
  - split; [split; intros [=] |]. split; [intros x [=] |].
    split; [| intros [=]]. intros _.
    split; [reflexivity |]. split; [reflexivity |].
    split; [apply lookup_lt_Some in Hg; lia |].
    split; [| reflexivity].
    rewrite lookup_app_r by lia. rewrite Nat.sub_diag. reflexivity.
  - split; [split; reflexivity |]. split; [intros x [= <-]; reflexivity |].
    split; [intros [=] |]. intros _. auto.
Qed.

(** C7. The class does not use a step function, and an epoch trains
    nothing: [new_epoch] leaves the weight optimizer, the loss, the
    gradient clip and every other setting as they were, changes no
    architecture that exists, and when it returns it has added exactly one
    new architecture and recorded its model. *)
Theorem new_epoch_trains_nothing e w :
  using_step_function = false /\
  same_settings (optimizer w) (optimizer (new_epoch e w).2) /\
  search_space (optimizer (new_epoch e w).2) = search_space (optimizer w) /\
  scope (optimizer (new_epoch e w).2) = scope (optimizer w) /\
  heap w `prefix_of` heap (new_epoch e w).2 /\
  ((new_epoch e w).1 = Ok tt ->
   length (heap (new_epoch e w).2) = S (length (heap w)) /\
   exists acc,
     optimizer (new_epoch e w).2 =
       recorded (optimizer w) (mkModel (length (heap w)) acc)).
Proof.
  split; [reflexivity | apply new_epoch_frame].
Qed.

(** C9. No operation of the optimizer writes to an object that exists:
    [sample_random_architecture] works on a clone, a new object, which is
    what it returns; [adapt_search_space] stores a clone, not the object it
    was given; and after any run, and after asking for the final
    architecture or the statistics, every object that was in the heap,
    the caller's search space among them, is as it was. *)
Theorem search_space_never_mutated space sc w :
  (heap w `prefix_of` heap (sample_random_architecture space sc w).2 /\
   forall a, (sample_random_architecture space sc w).1 = Ok a ->
     a = length (heap w) /\ heap w !! a = None) /\
  (heap w `prefix_of` heap (adapt_search_space space sc w).2 /\
   ((adapt_search_space space sc w).1 = Ok tt ->
    search_space (optimizer (adapt_search_space space sc w).2) =
      Some (length (heap w)) /\
    heap w !! length (heap w) = None)) /\
  (forall cs, heap w `prefix_of` heap (run cs w).2) /\
  heap (get_final_architecture w).2 = heap w /\
  heap (train_statistics w).2 = heap w /\
  heap (test_statistics w).2 = heap w /\
  forall cs g,
    heap w !! space = Some g -> heap (run cs w).2 !! space = Some g.
Proof.
  assert (Hfinal : steady get_final_architecture).
  { apply steady_bind; [apply steady_get_self | intros self].
    apply steady_bind; [apply steady_py_max | intros best; apply steady_ret]. }
  split; [| split; [| split; [| split; [| split; [| split]]]]].
  - destruct (sample_random_architecture_frame space sc w) as (Hh & _ & Ha).
    split; [exact Hh |]. intros a Hok. destruct (Ha a Hok) as [-> _].
    split; [reflexivity |]. apply lookup_ge_None. lia.
  - split; [apply extends_adapt_search_space |].
    rewrite adapt_search_space_spec.
    destruct (heap w !! space) as [g|]; [| intros [=]].
    destruct (QUERYABLE g); [| intros [=]].
    intros _. split; [reflexivity |]. apply lookup_ge_None. lia.
  - intros cs. apply extends_run.
  - apply Hfinal.
  - assert (Hs : steady train_statistics); [| apply Hs].
    apply steady_bind; [exact Hfinal | intros best].
    apply steady_bind; [apply steady_get_self | intros self].
    repeat (apply steady_bind; [apply steady_arch_query | intros ?]).
    apply steady_ret.
  - assert (Hs : steady test_statistics); [| apply Hs].
    apply steady_bind; [exact Hfinal | intros best].
    apply steady_bind; [apply steady_get_self | intros self].
    apply steady_arch_query.
  - intros cs g Hg. eapply prefix_lookup_Some; [exact Hg | apply extends_run].
Qed.

(** C10. When [add_sampled_op_index] returns on an edge, the edge's [op]
    is a list, untouched, and the [op_index] it has set lies in
    [0, len(op)); so whenever [update_ops] later finds the edge data as
    [add_sampled_op_index] left them, its access
    [primitives[edge.data.op_index]] is in bounds and yields the primitive
    the edge is then set to. In [sample_random_architecture] the second
    pass finds every edge so: whatever the sampler raises, it is no
    [IndexError]. *)
Theorem sampled_op_index_in_bounds edge w :
  (add_sampled_op_index edge w).1 = Ok tt ->
  (exists ops prims old i o,
     edge_at w edge = Some (mkEdgeData (OpList ops) prims old) /\
     edge_at (add_sampled_op_index edge w).2 edge =
       Some (mkEdgeData (OpList ops) prims (Some i)) /\
     (0 <= i < Z.of_nat (length ops))%Z /\
     ops !! Z.to_nat i = Some o /\
     forall w2,
       edge_at w2 edge = edge_at (add_sampled_op_index edge w).2 edge ->
       py_getitem ops i w2 = (Ok o, w2) /\
       (update_ops edge w2).1 = Ok tt /\
       edge_at (update_ops edge w2).2 edge =
         Some (mkEdgeData (OpSingle o) (Some ops) (Some i))) /\
  forall space sc w0 x,
    (sample_random_architecture space sc w0).1 = Raise x -> x <> IndexError.
Proof.
  intros Hok. split.
  2: { intros space sc w0 x Hx.
       pose proof (sample_random_architecture_outcome space sc w0) as Hout.
       rewrite Hx in Hout. exact Hout. }
  revert Hok. rewrite add_sampled_op_index_spec.
  destruct (edge_at w edge) as [[slot prims old]|] eqn:Hd; [| intros [=]].
  simpl. destruct slot as [ops|single]; [| intros [=]].
  destruct (Z.of_nat (length ops) <=? 0)%Z eqn:Hlen; [intros [=] | intros _].
  apply Z.leb_gt in Hlen.
  set (i := (seed w (draws w) mod Z.of_nat (length ops))%Z).
  assert (Hi : (0 <= i < Z.of_nat (length ops))%Z)
    by (apply Z.mod_pos_bound; exact Hlen).
  destruct (lookup_lt_is_Some_2 ops (Z.to_nat i)) as [o Ho]; [lia |].
  assert (Hnew : edge_at (write_edge (drawn w) edge
                            (mkEdgeData (OpList ops) prims (Some i))) edge
                 = Some (mkEdgeData (OpList ops) prims (Some i))).
  { apply edge_at_write_same.
    change (edge_at (drawn w) edge) with (edge_at w edge). rewrite Hd. eauto. }
  exists ops, prims, old, i, o. simpl.
  split; [reflexivity |]. split; [exact Hnew |].
  split; [exact Hi |]. split; [exact Ho |].
  intros w2 Hw2. rewrite Hnew in Hw2.
  destruct (py_getitem_in_bounds ops i w2 Hi) as (o' & Ho' & Hget).
  assert (o' = o) by congruence. subst o'.
  split; [exact Hget |].
  eapply update_ops_list; eassumption.
Qed.

(** C8. Before any [new_epoch] call, whatever else was called on the fresh
    optimizer, [get_final_architecture] raises the [ValueError] of [max]
    over an empty sequence, and so do [train_statistics] and
    [test_statistics]. *)
Theorem get_final_architecture_empty cs w config wo lc gc :
  optimizer w = __init__ config wo lc gc ->
  epochs cs = 0 ->
  get_final_architecture (run cs w).2 = (Raise ValueError, (run cs w).2) /\
  train_statistics (run cs w).2 = (Raise ValueError, (run cs w).2) /\
  test_statistics (run cs w).2 = (Raise ValueError, (run cs w).2).
Proof.
  intros Ho He.
  assert (Hg : get_final_architecture (run cs w).2
               = (Raise ValueError, (run cs w).2)).
  { rewrite get_final_architecture_spec, (run_no_epoch cs w He), Ho.
    reflexivity. }
  split; [exact Hg |].
  split; [unfold train_statistics | unfold test_statistics];
    apply bind_raise, Hg.
Qed.

End Properties.

(** ** The claims on the small benchmark *)

Lemma get_final_architecture_best_toy :
  exists m g,
    get_final_architecture (Toy.after 3) = (Ok (arch m), Toy.after 3) /\
    m ∈ sampled_archs (optimizer (Toy.after 3)) /\
    heap (Toy.after 3) !! arch m = Some g /\
    accuracy m = query (SearchSpaceAPI := Toy.api) g VAL_ACCURACY "cifar10" /\
    forall m', m' ∈ sampled_archs (optimizer (Toy.after 3)) ->
      (accuracy m' <= accuracy m)%Z.
Proof.
  apply (get_final_architecture_best (API := Toy.api) (Toy.calls 3) Toy.world
           (mkConfig "cifar10") "SGD" "CrossEntropyLoss" None).
  - reflexivity.
  - vm_compute. reflexivity.
  - vm_compute. lia.
Defined.

Lemma history_length_bounded_toy :
  length (history (optimizer (Toy.after 101))) = min (epochs (Toy.calls 101)) 100 /\
  length (history (optimizer (Toy.after 101))) <= 100 /\
  forall child w',
    length (history (optimizer w')) = 100 ->
    length (history (optimizer (_update_history child w').2)) = 100.
Proof.
  apply (history_length_bounded (API := Toy.api) (Toy.calls 101) Toy.world
           (mkConfig "cifar10") "SGD" "CrossEntropyLoss" None).
  - reflexivity.
  - vm_compute. reflexivity.
Defined.

Lemma history_keeps_best_toy :
  (exists p,
     p ∈ history (optimizer (Toy.after 101)) /\
     p ∈ sampled_archs (optimizer (Toy.after 101)) /\
     forall m, m ∈ sampled_archs (optimizer (Toy.after 101)) ->
       (accuracy m <= accuracy p)%Z) /\
  forall child w' m,
    m ∈ history (optimizer w') ->
    exists p,
      p ∈ history (optimizer (_update_history child w').2) /\
      (accuracy m <= accuracy p)%Z.
Proof.
  apply (history_keeps_best (API := Toy.api) (Toy.calls 101) Toy.world
           (mkConfig "cifar10") "SGD" "CrossEntropyLoss" None).
  - reflexivity.
  - vm_compute. reflexivity.
  - vm_compute. lia.
Defined.

Lemma get_final_architecture_empty_toy :
  get_final_architecture (Toy.after 0) = (Raise ValueError, Toy.after 0) /\
  train_statistics (API := Toy.api) (Toy.after 0) = (Raise ValueError, Toy.after 0) /\
  test_statistics (API := Toy.api) (Toy.after 0) = (Raise ValueError, Toy.after 0).
Proof.
  apply (get_final_architecture_empty (API := Toy.api) (Toy.calls 0) Toy.world
           (mkConfig "cifar10") "SGD" "CrossEntropyLoss" None).
  - reflexivity.
  - reflexivity.
Defined.

(** C2 as stated fails. On the small benchmark the first sampled model has
    accuracy 5, the next ninety-nine have accuracy 1 and the last one has
    accuracy 6. The scan overwrites the first entry, of accuracy 5, though
    ninety-nine entries of accuracy 1 remain: after 101 epochs the second
    best model is not in the history. *)
Lemma history_not_top_k :
  (run (API := Toy.api) (Toy.calls 101) Toy.world).1 = Ok tt /\
  epochs (Toy.calls 101) = 101 /\
  ~ top_k_history 100
      (history (optimizer (Toy.after 101)))
      (sampled_archs (optimizer (Toy.after 101))).
Proof.
  split; [vm_compute; reflexivity |].
  split; [reflexivity |].
  intros [_ Hperm].
  assert (Hin : 5%Z ∈ top_accuracies 100 (sampled_archs (optimizer (Toy.after 101)))).
  { vm_compute. right. left. }
  rewrite <- Hperm in Hin.
  assert (Hout : 5%Z ∉ map accuracy (history (optimizer (Toy.after 101)))).
  { apply (bool_decide_unpack _). vm_compute. exact I. }
  exact (Hout Hin).
Qed.

Lemma history_bounded_selection_toy :
  length (sampled_archs (optimizer (Toy.after 101))) = epochs (Toy.calls 101) /\
  (epochs (Toy.calls 101) <= 100 ->
   history (optimizer (Toy.after 101)) = sampled_archs (optimizer (Toy.after 101))) /\
  (100 <= epochs (Toy.calls 101) ->
   length (history (optimizer (Toy.after 101))) = 100) /\
  history (optimizer (Toy.after 101)) ⊆+ sampled_archs (optimizer (Toy.after 101)) /\
  (forall m, m ∈ sampled_archs (optimizer (Toy.after 101)) ->
     exists p, p ∈ history (optimizer (Toy.after 101)) /\
               (accuracy m <= accuracy p)%Z) /\
  forall child w',
    100 <= length (history (optimizer w')) ->
    history (optimizer (_update_history child w').2) =
      match list_find (fun p => (accuracy p < accuracy child)%Z)
                      (history (optimizer w')) with
      | Some (i, _) => <[i := child]> (history (optimizer w'))
      | None => history (optimizer w')
      end.
Proof.
  apply (history_bounded_selection (API := Toy.api) (Toy.calls 101) Toy.world
           (mkConfig "cifar10") "SGD" "CrossEntropyLoss" None).
  - reflexivity.
  - vm_compute. reflexivity.
Defined.

Lemma adapt_search_space_queryable_toy :
  ((adapt_search_space 1 ScopeNone Toy.world).1 = Raise AssertionError <->
   QUERYABLE Toy.closed_space = false) /\
  (forall x, (adapt_search_space 1 ScopeNone Toy.world).1 = Raise x ->
     x = AssertionError) /\
  (QUERYABLE Toy.closed_space = true ->
   (adapt_search_space 1 ScopeNone Toy.world).1 = Ok tt /\
   search_space (optimizer (adapt_search_space 1 ScopeNone Toy.world).2) =
     Some (length (heap Toy.world)) /\
   length (heap Toy.world) <> 1 /\
   heap (adapt_search_space 1 ScopeNone Toy.world).2 !! length (heap Toy.world) =
     Some Toy.closed_space /\
   scope (optimizer (adapt_search_space 1 ScopeNone Toy.world).2) =
     Some (if truthy ScopeNone then ScopeNone else OPTIMIZER_SCOPE Toy.closed_space)) /\
  (QUERYABLE Toy.closed_space = false ->
   (adapt_search_space 1 ScopeNone Toy.world).2 = Toy.world /\
   (search_space (optimizer Toy.world) = None ->
    search_space (optimizer (adapt_search_space 1 ScopeNone Toy.world).2) = None) /\
   (scope (optimizer Toy.world) = None ->
    scope (optimizer (adapt_search_space 1 ScopeNone Toy.world).2) = None)).
Proof.
  apply (adapt_search_space_queryable 1 ScopeNone Toy.world Toy.closed_space).
  reflexivity.
Defined.

Lemma sampled_op_index_in_bounds_toy :
  (exists ops prims old i o,
     edge_at Toy.world (mkEdgeRef 0 0) = Some (mkEdgeData (OpList ops) prims old) /\
     edge_at (add_sampled_op_index (mkEdgeRef 0 0) Toy.world).2 (mkEdgeRef 0 0) =
       Some (mkEdgeData (OpList ops) prims (Some i)) /\
     (0 <= i < Z.of_nat (length ops))%Z /\
     ops !! Z.to_nat i = Some o /\
     forall w2,
       edge_at w2 (mkEdgeRef 0 0) =
         edge_at (add_sampled_op_index (mkEdgeRef 0 0) Toy.world).2 (mkEdgeRef 0 0) ->
       py_getitem ops i w2 = (Ok o, w2) /\
       (update_ops (mkEdgeRef 0 0) w2).1 = Ok tt /\
       edge_at (update_ops (mkEdgeRef 0 0) w2).2 (mkEdgeRef 0 0) =
         Some (mkEdgeData (OpSingle o) (Some ops) (Some i))) /\
  forall space sc w0 x,
    (sample_random_architecture (API := Toy.api) space sc w0).1 = Raise x ->
    x <> IndexError.
Proof.
  apply (sampled_op_index_in_bounds (API := Toy.api) (mkEdgeRef 0 0) Toy.world).
  vm_compute. reflexivity.
Defined.

(** * More of the optimizer *)

Section Edges.

Context `{API : SearchSpaceAPI}.

(** ** Indexing and writing *)

Lemma py_getitem_spec {A} (lst : list A) i w :
  py_getitem lst i w =
    (match item lst i with
     | Some a => Ok a
     | None => Raise IndexError
     end, w).
Proof.
  unfold py_getitem, item. cbv zeta.
  destruct (_ <? 0)%Z; [reflexivity |].
  destruct (lst !! _); reflexivity.
Qed.

Lemma item_None {A} (lst : list A) i :
  item lst i = None <->
  (i < - Z.of_nat (length lst) \/ Z.of_nat (length lst) <= i)%Z.
Proof.
  unfold item. cbv zeta.
  destruct (i <? 0)%Z eqn:Hneg.
  - apply Z.ltb_lt in Hneg.
    destruct (Z.of_nat (length lst) + i <? 0)%Z eqn:Hlow.
    + apply Z.ltb_lt in Hlow. split; [intros _; lia | reflexivity].
    + apply Z.ltb_ge in Hlow. rewrite lookup_ge_None. lia.
  - apply Z.ltb_ge in Hneg.
    replace (i <? 0)%Z with false by lia.
    rewrite lookup_ge_None. lia.
Qed.

Lemma item_from_end {A} (lst : list A) i :
  (- Z.of_nat (length lst) <= i < 0)%Z ->
  item lst i = lst !! Z.to_nat (Z.of_nat (length lst) + i).
Proof.
  intros Hi. unfold item. cbv zeta.
  replace (i <? 0)%Z with true by lia.
  replace (Z.of_nat (length lst) + i <? 0)%Z with false by lia.
  reflexivity.
Qed.

Lemma write_edge_twice w edge d1 d2 :
  write_edge (write_edge w edge d1) edge d2 = write_edge w edge d2.
Proof.
  unfold write_edge.
  destruct (heap w !! graph_of edge) as [g|] eqn:Hg; [| rewrite Hg; reflexivity].
  destruct (edges g !! index_of edge) as [e|] eqn:He;
    [| rewrite Hg, He; reflexivity].
  simpl.
  rewrite list_lookup_insert_eq by (eapply lookup_lt_Some; exact Hg).
  simpl. rewrite list_lookup_insert_eq by (eapply lookup_lt_Some; exact He).
  simpl. rewrite !list_insert_insert_eq. reflexivity.
Qed.

Lemma write_edge_id w edge d :
  edge_at w edge = Some d -> write_edge w edge d = w.
Proof.
  unfold edge_at, write_edge.
  destruct (heap w !! graph_of edge) as [g|] eqn:Hg; [| intros [=]].
  destruct (edges g !! index_of edge) as [e|] eqn:He; [| intros [=]].
  simpl. intros [= <-].
  replace (mkEdge (tail_node e) (head_node e) (data e)) with e
    by (destruct e; reflexivity).
  rewrite (list_insert_id _ _ _ He).
  replace (mkGraph (edges g) (QUERYABLE g) (OPTIMIZER_SCOPE g)) with g
    by (destruct g; reflexivity).
  rewrite (list_insert_id _ _ _ Hg). destruct w; reflexivity.
Qed.

(** ** [update_ops], in full *)

Lemma update_ops_spec edge w :
  update_ops edge w =
    match edge_at w edge with
    | None => (Raise AttributeError, w)
    | Some d =>
        match candidates d with
        | None => (Raise AttributeError, w)
        | Some prims =>
            match op_index d with
            | None => (Raise AttributeError, w)
            | Some i =>
                match item prims i with
                | None => (Raise IndexError, w)
                | Some o =>
                    (Ok tt,
                     write_edge w edge
                       (mkEdgeData (OpSingle o) (Some prims) (Some i)))
                end
            end
        end
    end.
Proof.
  unfold update_ops. rewrite bind_eq, edge_data_spec.
  destruct (edge_at w edge) as [d|] eqn:Hd; [| reflexivity].
  rewrite bind_eq. unfold candidates.
  assert (Hprims :
    (match op d with
     | OpList ops => mret ops
     | OpSingle _ => attr (primitives d)
     end : M (list Op)) w =
    (match (match op d with
            | OpList ops => Some ops
            | OpSingle _ => primitives d
            end) with
     | Some prims => Ok prims
     | None => Raise AttributeError
     end, w)).
  { destruct (op d); [reflexivity |]. destruct (primitives d); reflexivity. }
  rewrite Hprims. clear Hprims.
  destruct (match op d with OpList ops => Some ops | OpSingle _ => primitives d end)
    as [prims|]; [| reflexivity].
  rewrite bind_eq. destruct (op_index d) as [i|] eqn:Hi; [| reflexivity].
  simpl. rewrite bind_eq, py_getitem_spec.
  destruct (item prims i) as [o|]; [| reflexivity].
  rewrite bind_eq, set_op_spec, Hd. rewrite set_primitives_spec.
  rewrite edge_at_write_same by (rewrite Hd; eauto).
  simpl. rewrite write_edge_twice, Hi. reflexivity.
Qed.

(** ** The edge functions at their edges *)

(** X1. [update_ops] is idempotent: once it has returned on an edge,
    calling it again on that edge returns and changes nothing, the stored
    [primitives] and [op_index] giving back the same operation. *)
Theorem update_ops_idempotent edge w :
  (update_ops edge w).1 = Ok tt ->
  update_ops edge (update_ops edge w).2 = (Ok tt, (update_ops edge w).2).
Proof.
  rewrite (update_ops_spec edge w).
  destruct (edge_at w edge) as [d|] eqn:Hd; [| intros [=]].
  destruct (candidates d) as [prims|]; [| intros [=]].
  destruct (op_index d) as [i|]; [| intros [=]].
  destruct (item prims i) as [o|] eqn:Ho; [| intros [=]].
  intros _. simpl.
  set (d' := mkEdgeData (OpSingle o) (Some prims) (Some i)).
  assert (Hd' : edge_at (write_edge w edge d') edge = Some d').
  { apply edge_at_write_same. rewrite Hd. eauto. }
  rewrite update_ops_spec, Hd'. simpl. rewrite Ho.
  fold d'. rewrite (write_edge_id _ _ _ Hd'). reflexivity.
Qed.

(** X2. An [update_ops] that raises has written nothing; and it raises an
    [IndexError] exactly when the edge has a list of primitives and an
    index outside of [-len, len): with such an index it does raise it, and
    it raises it in no other case. *)
Theorem update_ops_failure edge w :
  (forall x, (update_ops edge w).1 = Raise x -> (update_ops edge w).2 = w) /\
  ((update_ops edge w).1 = Raise IndexError <->
   exists d prims i,
     edge_at w edge = Some d /\ candidates d = Some prims /\
     op_index d = Some i /\
     (i < - Z.of_nat (length prims) \/ Z.of_nat (length prims) <= i)%Z).
Proof.
  rewrite update_ops_spec.
  destruct (edge_at w edge) as [d|] eqn:Hd.
  2: { simpl. split; [reflexivity |].
       split; [intros [=] | intros (? & ? & ? & [=] & _)]. }
  destruct (candidates d) as [prims|] eqn:Hc.
  2: { simpl. split; [reflexivity |].
       split; [intros [=] | intros (? & ? & ? & [= <-] & Hc' & _); congruence]. }
  destruct (op_index d) as [i|] eqn:Hi.
  2: { simpl. split; [reflexivity |].
       split; [intros [=] | intros (? & ? & ? & [= <-] & _ & Hi' & _); congruence]. }
  destruct (item prims i) as [o|] eqn:Ho; simpl.
  - split; [intros x [=] |].
    split; [intros [=] |].
    intros (d' & prims' & i' & [= <-] & Hc' & Hi' & Hout).
    assert (prims' = prims) by congruence. assert (i' = i) by congruence.
    subst. apply item_None in Hout. congruence.
  - split; [reflexivity |]. split; [intros _ | reflexivity].
    exists d, prims, i. repeat (split; [assumption || reflexivity |]).
    apply item_None, Ho.
Qed.

(** X3. With a list of primitives and an index in [-len, len),
    [update_ops] returns: the edge's [op] is the primitive at that index,
    counted from the end if the index is negative, [primitives] is the
    list, the index stays, and no other edge changes. *)
Theorem update_ops_selects edge w d prims i :
  edge_at w edge = Some d ->
  candidates d = Some prims ->
  op_index d = Some i ->
  (- Z.of_nat (length prims) <= i < Z.of_nat (length prims))%Z ->
  exists o,
    prims !! Z.to_nat (if (i <? 0)%Z then Z.of_nat (length prims) + i else i)%Z
      = Some o /\
    (update_ops edge w).1 = Ok tt /\
    edge_at (update_ops edge w).2 edge =
      Some (mkEdgeData (OpSingle o) (Some prims) (Some i)) /\
    forall edge', edge' <> edge ->
      edge_at (update_ops edge w).2 edge' = edge_at w edge'.
Proof.
  intros Hd Hc Hi Hin.
  destruct (item prims i) as [o|] eqn:Ho.
  2: { apply item_None in Ho. lia. }
  exists o. split.
  { revert Ho. unfold item. cbv zeta.
    destruct (i <? 0)%Z eqn:Hneg.
    - apply Z.ltb_lt in Hneg.
      replace (Z.of_nat (length prims) + i <? 0)%Z with false by lia. auto.
    - replace (i <? 0)%Z with false by lia. auto. }
  rewrite update_ops_spec, Hd, Hc, Hi, Ho. simpl.
  split; [reflexivity |]. split.
  - apply edge_at_write_same. rewrite Hd. eauto.
  - intros edge' Hne. apply edge_at_write_other, Hne.
Qed.

(** X4. On an edge whose [op] is a list, [add_sampled_op_index] raises
    exactly when the list is empty, and then the [ValueError] of
    [randint(0)]; having raised, it has written nothing: heap and
    optimizer are as they were, the edge still without a new index. *)
Theorem add_sampled_op_index_empty edge w d ops :
  edge_at w edge = Some d ->
  op d = OpList ops ->
  (ops = [] ->
   (add_sampled_op_index edge w).1 = Raise ValueError /\
   heap (add_sampled_op_index edge w).2 = heap w /\
   optimizer (add_sampled_op_index edge w).2 = optimizer w /\
   edge_at (add_sampled_op_index edge w).2 edge = Some d) /\
  (ops <> [] -> (add_sampled_op_index edge w).1 = Ok tt) /\
  ((add_sampled_op_index edge w).1 = Ok tt -> ops <> []).
Proof.
  intros Hd Hop. rewrite add_sampled_op_index_spec, Hd, Hop.
  destruct ops as [|o ops]; simpl.
  - split; [intros _; auto |]. split; [congruence | intros [=]].
  - split; [intros [=] |]. split; [reflexivity | intros _; discriminate].
Qed.

End Edges.

Section Sampler.

Context `{API : SearchSpaceAPI}.

(** ** The shape of a graph *)

Lemma graph_shape_write w edge d a :
  graph_shape (write_edge w edge d) a = graph_shape w a.
Proof.
  unfold graph_shape, write_edge.
  destruct (heap w !! graph_of edge) as [g|] eqn:Hg; [| reflexivity].
  destruct (edges g !! index_of edge) as [e|] eqn:He; [| reflexivity].
  simpl. destruct (decide (a = graph_of edge)) as [->|Hne].
  - rewrite list_lookup_insert_eq by (eapply lookup_lt_Some; exact Hg).
    rewrite Hg. simpl. rewrite length_insert. reflexivity.
  - rewrite list_lookup_insert_ne by auto. reflexivity.
Qed.

Lemma shapes_add_sampled_op_index edge : shapes (add_sampled_op_index edge).
Proof.
  intros w a. rewrite add_sampled_op_index_spec.
  destruct (edge_at w edge) as [d|]; [| reflexivity].
  destruct (op d) as [ops|single]; [| reflexivity].
  destruct (Z.of_nat (length ops) <=? 0)%Z; [reflexivity |].
  simpl. rewrite graph_shape_write. reflexivity.
Qed.

Lemma shapes_update_ops edge : shapes (update_ops edge).
Proof.
  intros w a. rewrite update_ops_spec.
  destruct (edge_at w edge) as [d|]; [| reflexivity].
  destruct (candidates d) as [prims|]; [| reflexivity].
  destruct (op_index d) as [i|]; [| reflexivity].
  destruct (item prims i) as [o|]; [| reflexivity].
  simpl. apply graph_shape_write.
Qed.

Lemma shapes_update_edges_loop f sc a indices :
  (forall edge, shapes (f edge)) -> shapes (update_edges_loop f sc a indices).
Proof.
  intros Hf. induction indices as [|j rest IH]; intros w b; [reflexivity |].
  simpl. rewrite bind_eq, get_edge_spec.
  destruct (edge_of w (mkEdgeRef a j)) as [e|]; [| reflexivity].
  rewrite bind_eq.
  destruct (in_scope sc (tail_node e) (head_node e)).
  - pose proof (Hf (mkEdgeRef a j) w b) as Hstep.
    destruct (f (mkEdgeRef a j) w) as [[u|x] w1]; simpl in *; [| exact Hstep].
    rewrite IH. exact Hstep.
  - simpl. apply IH.
Qed.

Lemma shapes_update_edges f sc a private_edge_data :
  (forall edge, shapes (f edge)) ->
  shapes (update_edges a f sc private_edge_data).
Proof.
  intros Hf w b. rewrite update_edges_spec.
  destruct (heap w !! a); [| reflexivity].
  apply shapes_update_edges_loop, Hf.
Qed.

(** ** A pass, edge by edge *)

(** A pass that returns has taken every visited edge from [e] to an [e']
    with [R e e'], if each call of the edge function does so on the edges
    the scope selects and writes to no other edge. *)
Lemma update_edges_loop_post (Pre : EdgeData -> Prop) (R : Edge -> Edge -> Prop)
    f sc a indices w :
  NoDup indices ->
  (forall j, writes (mkEdgeRef a j) (f (mkEdgeRef a j))) ->
  (forall j w0 e,
     edge_of w0 (mkEdgeRef a j) = Some e ->
     in_scope sc (tail_node e) (head_node e) = true ->
     Pre (data e) ->
     (f (mkEdgeRef a j) w0).1 = Ok tt ->
     exists e', edge_of (f (mkEdgeRef a j) w0).2 (mkEdgeRef a j) = Some e' /\
                R e e') ->
  (forall e, in_scope sc (tail_node e) (head_node e) = false -> R e e) ->
  (forall i, i ∈ indices -> selected Pre sc w (mkEdgeRef a i)) ->
  (update_edges_loop f sc a indices w).1 = Ok tt ->
  forall i, i ∈ indices ->
    exists e e',
      edge_of w (mkEdgeRef a i) = Some e /\
      edge_of (update_edges_loop f sc a indices w).2 (mkEdgeRef a i) = Some e' /\
      R e e'.
Proof.
  intros Hnd Hwr Hstep Hout. revert w.
  induction indices as [|j rest IH]; intros w Hsel Hok i Hi; [inversion Hi |].
  apply NoDup_cons in Hnd as [Hj Hnd]. specialize (IH Hnd).
  destruct (Hsel j (list_elem_of_here _ _)) as (e & He & HPre).
  pose proof (update_edges_loop_unvisited f sc a rest) as Hun.
  revert Hok. simpl. rewrite bind_eq, get_edge_spec, He, bind_eq.
  destruct (in_scope sc (tail_node e) (head_node e)) eqn:Hsc.
  - pose proof (Hstep j w e He Hsc (HPre eq_refl)) as Hj'.
    pose proof (Hwr j w) as Hfr.
    destruct (f (mkEdgeRef a j) w) as [[[]|x] w1]; [| intros [=]].
    simpl in Hj', Hfr. intros Hok.
    destruct (Hj' eq_refl) as (e' & He' & HR).
    assert (Hsel1 : forall i0, i0 ∈ rest -> selected Pre sc w1 (mkEdgeRef a i0)).
    { intros i0 Hi0. destruct (Hsel i0 (list_elem_of_further _ _ _ Hi0))
        as (e0 & He0 & HP0).
      exists e0. split; [| exact HP0]. rewrite Hfr; [exact He0 |].
      intros [=]. subst i0. contradiction. }
    apply elem_of_cons in Hi as [->|Hi].
    + exists e, e'. split; [exact He |]. split; [| exact HR].
      rewrite (Hun w1 j Hwr Hj). exact He'.
    + destruct (IH w1 Hsel1 Hok i Hi) as (ei & ei' & Hei & Hei' & HRi).
      exists ei, ei'. split; [| split; [exact Hei' | exact HRi]].
      rewrite <- Hei. symmetry. apply Hfr. intros [=]. subst i. contradiction.
  - simpl. intros Hok.
    assert (Hsel1 : forall i0, i0 ∈ rest -> selected Pre sc w (mkEdgeRef a i0)).
    { intros i0 Hi0. apply Hsel. right. exact Hi0. }
    apply elem_of_cons in Hi as [->|Hi].
    + exists e, e. split; [exact He |]. split; [| apply Hout, Hsc].
      rewrite (Hun w j Hwr Hj). exact He.
    + apply (IH w Hsel1 Hok i Hi).
Qed.

Lemma add_sampled_op_index_step sc j a w e :
  edge_of w (mkEdgeRef a j) = Some e ->
  in_scope sc (tail_node e) (head_node e) = true ->
  (add_sampled_op_index (mkEdgeRef a j) w).1 = Ok tt ->
  exists e',
    edge_of (add_sampled_op_index (mkEdgeRef a j) w).2 (mkEdgeRef a j) = Some e' /\
    index_drawn sc e e'.
Proof.
  intros He Hsc. rewrite add_sampled_op_index_spec, edge_at_of, He. simpl.
  destruct (op (data e)) as [ops|single] eqn:Hop; [| intros [=]].
  destruct (Z.of_nat (length ops) <=? 0)%Z eqn:Hlen; [intros [=] | intros _].
  apply Z.leb_gt in Hlen. simpl.
  eexists. split.
  - apply edge_of_write_same. exact He.
  - split; [reflexivity |]. split; [reflexivity |]. simpl. rewrite Hsc.
    exists ops, (seed w (draws w) mod Z.of_nat (length ops))%Z.
    split; [exact Hop |]. split; [apply Z.mod_pos_bound, Hlen | reflexivity].
Qed.

Lemma update_ops_step sc j a w e :
  edge_of w (mkEdgeRef a j) = Some e ->
  in_scope sc (tail_node e) (head_node e) = true ->
  indexed (data e) ->
  (update_ops (mkEdgeRef a j) w).1 = Ok tt ->
  exists e',
    edge_of (update_ops (mkEdgeRef a j) w).2 (mkEdgeRef a j) = Some e' /\
    op_chosen sc e e'.
Proof.
  intros He Hsc (ops & k & Hop & Hk & Hin) _.
  rewrite update_ops_spec, edge_at_of, He. simpl.
  unfold candidates. rewrite Hop, Hk.
  destruct (item ops k) as [o|] eqn:Ho.
  2: { apply item_None in Ho. lia. }
  simpl. eexists. split.
  - apply edge_of_write_same. exact He.
  - split; [reflexivity |]. split; [reflexivity |]. simpl. rewrite Hsc.
    exists ops, k, o. split; [exact Hop |]. split; [exact Hk |].
    split; [exact Hin |]. split; [| reflexivity].
    revert Ho. unfold item. cbv zeta.
    replace (k <? 0)%Z with false by lia.
    replace (k <? 0)%Z with false by lia. auto.
Qed.

Lemma index_drawn_chosen sc e0 e1 e2 :
  index_drawn sc e0 e1 -> op_chosen sc e1 e2 -> discretized sc e0 e2.
Proof.
  intros (Ht1 & Hh1 & H1) (Ht2 & Hh2 & H2).
  split; [congruence |]. split; [congruence |].
  rewrite Ht1, Hh1 in H2.
  destruct (in_scope sc (tail_node e0) (head_node e0)).
  - destruct H1 as (ops & k & Hop & Hin & Hd1).
    destruct H2 as (ops' & k' & o & Hop' & Hk' & _ & Ho & Hd2).
    rewrite Hd1 in Hop', Hk'. simpl in Hop', Hk'.
    injection Hop' as <-. injection Hk' as <-.
    exists ops, k, o. auto.
  - congruence.
Qed.

(** The two passes together, on a graph [g0] at [a]. *)
Lemma discretize_post a sc w g0 :
  heap w !! a = Some g0 ->
  (update_edges a add_sampled_op_index sc false w).1 = Ok tt ->
  exists g',
    heap (update_edges a update_ops sc true
            (update_edges a add_sampled_op_index sc false w).2).2 !! a = Some g' /\
    QUERYABLE g' = QUERYABLE g0 /\
    OPTIMIZER_SCOPE g' = OPTIMIZER_SCOPE g0 /\
    Forall2 (discretized sc) (edges g0) (edges g').
Proof.
  intros Hg Hfirst.
  pose proof (second_pass_after_first a sc w Hfirst) as Hsecond.
  pose proof (shapes_update_edges add_sampled_op_index sc a false
                shapes_add_sampled_op_index w a) as Hshape1.
  set (w1 := (update_edges a add_sampled_op_index sc false w).2) in *.
  pose proof (shapes_update_edges update_ops sc a true
                shapes_update_ops w1 a) as Hshape2.
  set (w2 := (update_edges a update_ops sc true w1).2) in *.
  assert (Hs0 : graph_shape w a
                = Some (length (edges g0), QUERYABLE g0, OPTIMIZER_SCOPE g0)).
  { unfold graph_shape. rewrite Hg. reflexivity. }
  rewrite Hs0 in Hshape1. rewrite Hshape1 in Hshape2.
  unfold graph_shape in Hshape1, Hshape2.
  apply fmap_Some in Hshape1 as (g1 & Hg1 & Hsh1).
  apply fmap_Some in Hshape2 as (g2 & Hg2 & Hsh2).
  injection Hsh1 as Hlen1 HQ1 HS1. injection Hsh2 as Hlen2 HQ2 HS2.
  (* the first pass *)
  assert (Hpass1 : forall i, i < length (edges g0) ->
            exists e e1, edges g0 !! i = Some e /\ edges g1 !! i = Some e1 /\
                         index_drawn sc e e1).
  { intros i Hi.
    assert (Hloop : (update_edges_loop add_sampled_op_index sc a
                       (seq 0 (length (edges g0))) w).1 = Ok tt).
    { revert Hfirst. rewrite update_edges_spec, Hg. auto. }
    destruct (update_edges_loop_post (fun _ => True) (index_drawn sc)
                add_sampled_op_index sc a (seq 0 (length (edges g0))) w)
      with (i := i) as (e & e1 & He & He1 & HR).
    - apply NoDup_seq.
    - intros j. apply writes_add_sampled_op_index.
    - intros j w0 e He Hsc _ Hok.
      apply add_sampled_op_index_step; assumption.
    - intros e Hsc. split; [reflexivity |]. split; [reflexivity |].
      rewrite Hsc. reflexivity.
    - intros i0 Hi0. apply elem_of_seq in Hi0.
      destruct (lookup_lt_is_Some_2 (edges g0) i0) as [e He]; [lia |].
      exists e. split; [| auto]. unfold edge_of. simpl. rewrite Hg. exact He.
    - exact Hloop.
    - apply elem_of_seq. lia.
    - exists e, e1. split; [| split; [| exact HR]].
      + revert He. unfold edge_of. simpl. rewrite Hg. auto.
      + assert (Hw1 : w1 = (update_edges_loop add_sampled_op_index sc a
                              (seq 0 (length (edges g0))) w).2)
          by (unfold w1; rewrite update_edges_spec, Hg; reflexivity).
        rewrite <- Hw1 in He1. revert He1.
        unfold edge_of. simpl. rewrite Hg1. auto. }
  (* the second pass *)
  assert (Hpass2 : forall i, i < length (edges g0) ->
            exists e1 e2, edges g1 !! i = Some e1 /\ edges g2 !! i = Some e2 /\
                          op_chosen sc e1 e2).
  { intros i Hi.
    assert (Hloop : (update_edges_loop update_ops sc a
                       (seq 0 (length (edges g1))) w1).1 = Ok tt).
    { revert Hsecond. rewrite update_edges_spec, Hg1. auto. }
    destruct (update_edges_loop_post indexed (op_chosen sc)
                update_ops sc a (seq 0 (length (edges g1))) w1)
      with (i := i) as (e1 & e2 & He1 & He2 & HR).
    - apply NoDup_seq.
    - intros j. apply writes_update_ops.
    - intros j w0 e He Hsc Hidx Hok.
      apply update_ops_step; assumption.
    - intros e Hsc. split; [reflexivity |]. split; [reflexivity |].
      rewrite Hsc. reflexivity.
    - intros i0 Hi0. apply elem_of_seq in Hi0.
      destruct (Hpass1 i0) as (e & e1 & _ & He1 & (Ht & Hh & Hdr)); [lia |].
      exists e1. split; [unfold edge_of; simpl; rewrite Hg1; exact He1 |].
      rewrite Ht, Hh. intros Hsc. rewrite Hsc in Hdr.
      destruct Hdr as (ops & k & _ & Hin & Hd).
      exists ops, k. rewrite Hd. auto.
    - exact Hloop.
    - apply elem_of_seq. lia.
    - exists e1, e2. split; [| split; [| exact HR]].
      + revert He1. unfold edge_of. simpl. rewrite Hg1. auto.
      + assert (Hw2 : w2 = (update_edges_loop update_ops sc a
                              (seq 0 (length (edges g1))) w1).2)
          by (unfold w2; rewrite update_edges_spec, Hg1; reflexivity).
        rewrite <- Hw2 in He2. revert He2.
        unfold edge_of. simpl. rewrite Hg2. auto. }
  exists g2. split; [exact Hg2 |]. split; [symmetry; exact HQ2 |].
  split; [symmetry; exact HS2 |].
  apply Forall2_same_length_lookup_2; [congruence |].
  intros i e e2 He He2.
  assert (Hi : i < length (edges g0)) by (eapply lookup_lt_Some; exact He).
  destruct (Hpass1 i Hi) as (e' & e1 & He' & He1 & Hdr).
  destruct (Hpass2 i Hi) as (e1' & e2' & He1' & He2' & Hch).
  assert (e' = e) by congruence. assert (e1' = e1) by congruence.
  assert (e2' = e2) by congruence. subst.
  eapply index_drawn_chosen; eassumption.
Qed.

(** ** What the sampler returns *)

Lemma sample_random_architecture_post space sc w g a :
  heap w !! space = Some g ->
  (sample_random_architecture space sc w).1 = Ok a ->
  exists g',
    heap (sample_random_architecture space sc w).2 !! a = Some g' /\
    QUERYABLE g' = QUERYABLE (prepare g) /\
    OPTIMIZER_SCOPE g' = OPTIMIZER_SCOPE (prepare g) /\
    Forall2 (discretized sc) (edges (prepare g)) (edges g').
Proof.
  intros Hg.
  unfold sample_random_architecture. rewrite bind_eq.
  pose proof (clone_spec space w) as Hc. rewrite Hg in Hc. rewrite Hc.
  rewrite bind_eq, prepare_discretization_spec. simpl.
  rewrite lookup_app_r by lia. rewrite Nat.sub_diag. simpl.
  rewrite bind_eq.
  match goal with
  | |- context [update_edges ?a0 add_sampled_op_index sc false ?w2] =>
      assert (Ha0 : heap w2 !! a0 = Some (prepare g))
        by (simpl; apply list_lookup_insert_eq; rewrite length_app; simpl; lia);
      pose proof (discretize_post a0 sc w2 (prepare g) Ha0) as Hpost;
      destruct (update_edges a0 add_sampled_op_index sc false w2)
        as [[[]|y] w3]; [| intros [=]]
  end.
  simpl in Hpost. specialize (Hpost eq_refl). rewrite bind_eq.
  match goal with
  | |- context [update_edges ?a0 update_ops sc true w3] =>
      destruct (update_edges a0 update_ops sc true w3) as [[[]|z] w4];
        [| intros [=]]
  end.
  simpl in *. intros [= <-]. exact Hpost.
Qed.

(** X5. The architecture [sample_random_architecture] returns is the
    search space after [prepare_discretization], discretized: the graph
    attributes and the endpoints of every edge are the same; an edge the
    scope selects has as [op] one of the primitives that were its
    candidates, as [primitives] the list of those candidates and as
    [op_index] the position of the choice; every other edge is as it was. *)
Theorem sample_random_architecture_discretizes space sc w g a :
  heap w !! space = Some g ->
  (sample_random_architecture space sc w).1 = Ok a ->
  exists g',
    heap (sample_random_architecture space sc w).2 !! a = Some g' /\
    QUERYABLE g' = QUERYABLE (prepare g) /\
    OPTIMIZER_SCOPE g' = OPTIMIZER_SCOPE (prepare g) /\
    Forall2 (discretized sc) (edges (prepare g)) (edges g').
Proof. apply sample_random_architecture_post. Qed.

End Sampler.

Section Search.

Context `{API : SearchSpaceAPI}.

(** ** Before the search space is adapted *)

(** X7. On an optimizer fresh from [__init__], [new_epoch] raises an
    [AttributeError], the search space not being an attribute yet, and
    changes nothing; so it does after [adapt_search_space] has refused a
    search space that is not queryable. *)
Theorem new_epoch_unadapted e w config wo lc gc :
  optimizer w = __init__ config wo lc gc ->
  new_epoch e w = (Raise AttributeError, w) /\
  forall space sc g,
    heap w !! space = Some g -> QUERYABLE g = false ->
    new_epoch e (adapt_search_space space sc w).2 = (Raise AttributeError, w).
Proof.
  intros Ho.
  assert (Hnew : new_epoch e w = (Raise AttributeError, w)).
  { rewrite new_epoch_spec, Ho. reflexivity. }
  split; [exact Hnew |].
  intros space sc g Hg Hq.
  rewrite adapt_search_space_spec, Hg, Hq. exact Hnew.
Qed.

(** ** Architectures are objects of their own *)

Lemma separated_fresh w config wo lc gc :
  optimizer w = __init__ config wo lc gc -> separated (length (heap w)) w.
Proof.
  intros Ho. split; rewrite ?Ho; simpl.
  - lia.
  - apply NoDup_nil_2.
  - intros m Hm. inversion Hm.
  - intros s [=].
Qed.

Lemma separated_extend n0 w w' :
  separated n0 w ->
  optimizer w' = optimizer w ->
  heap w `prefix_of` heap w' ->
  separated n0 w'.
Proof.
  intros [H0 H1 H2 H3] Ho Hh. apply prefix_length in Hh.
  split; rewrite ?Ho.
  - lia.
  - exact H1.
  - intros m Hm. specialize (H2 m Hm). lia.
  - intros s Hs. destruct (H3 s Hs) as [Hlt Hne]. split; [lia | exact Hne].
Qed.

Lemma separated_adapt_search_space n0 space sc w :
  separated n0 w -> separated n0 (adapt_search_space space sc w).2.
Proof.
  intros Hw. rewrite adapt_search_space_spec.
  destruct (heap w !! space) as [g|]; [| exact Hw].
  destruct (QUERYABLE g); [| exact Hw].
  destruct Hw as [H0 H1 H2 H3]. split; simpl.
  - rewrite length_app. simpl. lia.
  - exact H1.
  - intros m Hm. specialize (H2 m Hm). rewrite length_app. simpl. lia.
  - intros s [= <-]. rewrite length_app. simpl. split; [lia |].
    intros m Hm. specialize (H2 m Hm). lia.
Qed.

Lemma separated_new_epoch n0 e w :
  separated n0 w -> separated n0 (new_epoch e w).2.
Proof.
  intros Hw. rewrite new_epoch_spec.
  destruct (search_space (optimizer w)) as [space|] eqn:Hsp; [| exact Hw].
  destruct (scope (optimizer w)) as [sc|]; [| exact Hw].
  destruct (sample_random_architecture_frame space sc w) as (Hh & Ho & Ha).
  destruct (sample_random_architecture space sc w) as [[a|x] w1]; simpl in *.
  2: { eapply separated_extend; eassumption. }
  destruct (heap w1 !! a) as [g|].
  2: { eapply separated_extend; eassumption. }
  destruct (Ha a eq_refl) as [-> Hlen].
  destruct Hw as [H0 H1 H2 H3]. split; simpl.
  - lia.
  - rewrite fmap_app. apply NoDup_app. split; [exact H1 |]. split.
    + intros b Hb Hb'. apply list_elem_of_singleton in Hb'. simpl in Hb'.
      apply list_elem_of_fmap in Hb as (m & -> & Hm).
      specialize (H2 m Hm). lia.
    + apply NoDup_singleton.
  - intros m Hm. apply elem_of_app in Hm as [Hm|Hm].
    + specialize (H2 m Hm). lia.
    + apply list_elem_of_singleton in Hm as ->. simpl. lia.
  - intros s Hs. rewrite Hsp in Hs. injection Hs as <-.
    destruct (H3 space Hsp) as [Hlt Hne]. split; [lia |].
    intros m Hm. apply elem_of_app in Hm as [Hm|Hm]; [apply Hne, Hm |].
    apply list_elem_of_singleton in Hm as ->. simpl. lia.
Qed.

Lemma separated_run n0 cs w : separated n0 w -> separated n0 (run cs w).2.
Proof.
  revert w. induction cs as [|c cs IH]; intros w Hw; [exact Hw |].
  rewrite run_cons.
  assert (Hc : separated n0 (call c w).2).
  { destruct c; [apply separated_adapt_search_space
                | apply separated_new_epoch]; exact Hw. }
  destruct (call c w) as [[u|x] w1]; simpl in *; [apply IH, Hc | exact Hc].
Qed.

(** X8. After any run from a fresh optimizer, the sampled models have
    pairwise distinct architecture objects; each was made during the run,
    so it is none of the objects that existed before, and none is the
    stored search space. *)
Theorem architectures_separate cs w config wo lc gc :
  optimizer w = __init__ config wo lc gc ->
  NoDup (arch <$> sampled_archs (optimizer (run cs w).2)) /\
  forall m, m ∈ sampled_archs (optimizer (run cs w).2) ->
    heap w !! arch m = None /\
    is_Some (heap (run cs w).2 !! arch m) /\
    search_space (optimizer (run cs w).2) <> Some (arch m).
Proof.
  intros Ho.
  destruct (separated_run _ cs w (separated_fresh _ _ _ _ _ Ho))
    as [H0 H1 H2 H3].
  split; [exact H1 |]. intros m Hm. specialize (H2 m Hm).
  split; [apply lookup_ge_None; lia |].
  split; [apply lookup_lt_is_Some; lia |].
  intros Hs. destruct (H3 _ Hs) as [_ Hne]. exact (Hne m Hm eq_refl).
Qed.

(** ** More on the scan of the history *)

Lemma history_scan_slot child ps i p :
  ps !! i = Some p ->
  exists p', history_scan child 0 ps ps !! i = Some p' /\
             (accuracy p <= accuracy p')%Z.
Proof.
  revert i. induction ps as [|q ps IH]; intros i Hi; [inversion Hi |].
  rewrite history_scan_cons.
  destruct (accuracy child >? accuracy q)%Z eqn:Hgt; destruct i as [|i]; simpl in *.
  - injection Hi as <-. exists child. split; [reflexivity | lia].
  - exists p. split; [exact Hi | lia].
  - exists p. split; [exact Hi | lia].
  - apply IH, Hi.
Qed.

Lemma history_after_slot child hist i p :
  hist !! i = Some p ->
  exists p', history_after child hist !! i = Some p' /\
             (accuracy p <= accuracy p')%Z.
Proof.
  intros Hi. unfold history_after. destruct (length hist <? 100).
  - exists p. split; [apply lookup_app_l_Some, Hi | lia].
  - apply history_scan_slot, Hi.
Qed.

Lemma history_scan_unbeaten child ps :
  Forall (fun p => (accuracy child <= accuracy p)%Z) ps ->
  history_scan child 0 ps ps = ps.
Proof.
  induction 1 as [|q ps Hq _ IH]; [reflexivity |].
  rewrite history_scan_cons.
  replace (accuracy child >? accuracy q)%Z with false by lia.
  rewrite IH. reflexivity.
Qed.

Lemma history_scan_enters child ps :
  Exists (fun p => (accuracy p < accuracy child)%Z) ps ->
  child ∈ history_scan child 0 ps ps.
Proof.
  induction ps as [|q ps IH]; intros Hex; [inversion Hex |].
  rewrite history_scan_cons.
  destruct (accuracy child >? accuracy q)%Z eqn:Hgt; [left |].
  right. apply IH. apply Exists_cons in Hex as [Hq|Hex]; [lia | exact Hex].
Qed.

Lemma history_scan_stays child ps m :
  m ∈ ps -> (accuracy child <= accuracy m)%Z ->
  m ∈ history_scan child 0 ps ps.
Proof.
  induction ps as [|q ps IH]; intros Hm Hle; [inversion Hm |].
  rewrite history_scan_cons.
  destruct (accuracy child >? accuracy q)%Z eqn:Hgt.
  - apply elem_of_cons in Hm as [->|Hm]; [lia | right; exact Hm].
  - apply elem_of_cons in Hm as [->|Hm]; [left | right; apply IH; assumption].
Qed.

Lemma history_after_stays child hist m :
  m ∈ hist -> (accuracy child <= accuracy m)%Z ->
  m ∈ history_after child hist.
Proof.
  intros Hm Hle. unfold history_after. destruct (length hist <? 100).
  - apply elem_of_app. left. exact Hm.
  - apply history_scan_stays; assumption.
Qed.

Lemma history_after_enters child hist :
  (forall p, p ∈ hist -> (accuracy p < accuracy child)%Z) ->
  child ∈ history_after child hist.
Proof.
  intros Hall. unfold history_after.
  destruct (length hist <? 100) eqn:Hlen.
  - apply elem_of_app. right. left.
  - apply history_scan_enters. apply Nat.ltb_ge in Hlen.
    destruct hist as [|q hist]; [simpl in Hlen; lia |].
    apply Exists_cons_hd, Hall. left.
Qed.

(** ** More on [max] *)

Lemma max_from_app {A} (key : A -> Z) best (l1 l2 : list A) :
  max_from key best (l1 ++ l2) = max_from key (max_from key best l1) l2.
Proof.
  revert best. induction l1 as [|x l1 IH]; intros best; [reflexivity |].
  simpl. apply IH.
Qed.

Lemma max_from_best {A} (key : A -> Z) best (l : list A) :
  Forall (fun y => (key y <= key best)%Z) l -> max_from key best l = best.
Proof.
  induction 1 as [|x l Hx _ IH]; [reflexivity |].
  simpl. replace (key x >? key best)%Z with false by lia. exact IH.
Qed.

Lemma max_from_first {A} (key : A -> Z) best (pre : list A) m post :
  (key best < key m)%Z ->
  Forall (fun y => (key y < key m)%Z) pre ->
  Forall (fun y => (key y <= key m)%Z) post ->
  max_from key best (pre ++ m :: post) = m.
Proof.
  intros Hbest Hpre Hpost. revert best Hbest.
  induction Hpre as [|x pre Hx _ IH]; intros best Hbest; simpl.
  - replace (key m >? key best)%Z with true by lia.
    apply max_from_best, Hpost.
  - apply IH. destruct (key x >? key best)%Z; assumption.
Qed.

(** ** The history, slot by slot *)

Lemma call_history c w :
  history (optimizer (call c w).2) = history (optimizer w) \/
  exists model,
    history (optimizer (call c w).2) =
      history_after model (history (optimizer w)).
Proof.
  destruct c as [space sc|e]; simpl.
  - left. rewrite adapt_search_space_spec.
    destruct (heap w !! space) as [g|]; [| reflexivity].
    destruct (QUERYABLE g); reflexivity.
  - destruct (new_epoch_frame e w) as (_ & _ & _ & _ & Hok).
    pose proof (call_raise (CallNewEpoch e) w) as Hraise. simpl in Hraise.
    destruct (new_epoch e w).1 as [[]|x].
    + destruct (Hok eq_refl) as (_ & acc & ->). right. eexists. reflexivity.
    + left. rewrite (Hraise x eq_refl). reflexivity.
Qed.

(** X9. No slot of the history ever gets worse, and no entry is ever
    taken out without a replacement: whatever is called, every position
    that held a model holds afterwards a model at least as accurate. *)
Theorem history_slots_improve cs w i p :
  history (optimizer w) !! i = Some p ->
  exists p',
    history (optimizer (run cs w).2) !! i = Some p' /\
    (accuracy p <= accuracy p')%Z.
Proof.
  revert w p. induction cs as [|c cs IH]; intros w p Hp.
  - exists p. split; [exact Hp | lia].
  - rewrite run_cons.
    assert (Hc : exists q, history (optimizer (call c w).2) !! i = Some q /\
                           (accuracy p <= accuracy q)%Z).
    { destruct (call_history c w) as [->|(model & ->)].
      - exists p. split; [exact Hp | lia].
      - apply history_after_slot, Hp. }
    destruct Hc as (q & Hq & Hpq).
    destruct (call c w) as [[u|x] w1]; simpl in *.
    + destruct (IH w1 q Hq) as (p' & Hp' & Hqp').
      exists p'. split; [exact Hp' | lia].
    + exists q. split; [exact Hq | exact Hpq].
Qed.

(** X10. On a full history [_update_history] drops a child that is not
    strictly better than some entry, a tie included, and leaves the
    history as it was; a child that is strictly better than some entry is
    in the history afterwards. *)
Theorem update_history_full child w :
  100 <= length (history (optimizer w)) ->
  (Forall (fun p => (accuracy child <= accuracy p)%Z) (history (optimizer w)) ->
   history (optimizer (_update_history child w).2) = history (optimizer w)) /\
  (Exists (fun p => (accuracy p < accuracy child)%Z) (history (optimizer w)) ->
   child ∈ history (optimizer (_update_history child w).2)).
Proof.
  intros Hfull. rewrite _update_history_spec. simpl. unfold history_after.
  replace (length (history (optimizer w)) <? 100) with false
    by (symmetry; apply Nat.ltb_ge; exact Hfull).
  split; [apply history_scan_unbeaten | apply history_scan_enters].
Qed.

(** ** Which model is the final one *)

(** X11. Among sampled models of equal, maximal accuracy,
    [get_final_architecture] returns the architecture of the one sampled
    first. *)
Theorem get_final_architecture_first w i m :
  sampled_archs (optimizer w) !! i = Some m ->
  Forall (fun m' => (accuracy m' < accuracy m)%Z)
    (take i (sampled_archs (optimizer w))) ->
  Forall (fun m' => (accuracy m' <= accuracy m)%Z)
    (drop (S i) (sampled_archs (optimizer w))) ->
  get_final_architecture w = (Ok (arch m), w).
Proof.
  intros Hi Hpre Hpost. rewrite get_final_architecture_spec.
  rewrite <- (take_drop_middle _ _ _ Hi).
  destruct (take i (sampled_archs (optimizer w))) as [|x pre]; simpl.
  - rewrite max_from_best by exact Hpost. reflexivity.
  - apply Forall_cons in Hpre as [Hx Hpre].
    rewrite max_from_first by assumption. reflexivity.
Qed.

Lemma final_kept_recorded o model :
  (forall p, p ∈ history o -> p ∈ sampled_archs o) ->
  final_kept o -> final_kept (recorded o model).
Proof.
  unfold final_kept. simpl. intros Hsub Hkept.
  destruct (sampled_archs o) as [|x l] eqn:Hs; simpl.
  - apply history_after_enters. intros p Hp.
    specialize (Hsub p Hp). inversion Hsub.
  - rewrite max_from_app. simpl.
    destruct (max_from_spec accuracy x l) as [_ Hmax].
    destruct (accuracy model >? accuracy (max_from accuracy x l))%Z eqn:Hgt.
    + apply history_after_enters. intros p Hp.
      specialize (Hmax p (Hsub p Hp)). lia.
    + apply history_after_stays; [exact Hkept | lia].
Qed.

Lemma final_kept_call c w :
  consistent w -> final_kept (optimizer w) ->
  final_kept (optimizer (call c w).2).
Proof.
  intros Hw Hkept.
  assert (Hsub : forall p, p ∈ history (optimizer w) ->
                   p ∈ sampled_archs (optimizer w)).
  { intros p Hp. eapply elem_of_submseteq; [exact Hp |].
    apply (history_sampled _ Hw). }
  destruct c as [space sc|e]; simpl.
  - rewrite adapt_search_space_spec.
    destruct (heap w !! space) as [g|]; [| exact Hkept].
    destruct (QUERYABLE g); exact Hkept.
  - destruct (new_epoch_frame e w) as (_ & _ & _ & _ & Hok).
    pose proof (call_raise (CallNewEpoch e) w) as Hraise. simpl in Hraise.
    destruct (new_epoch e w).1 as [[]|x].
    + destruct (Hok eq_refl) as (_ & acc & ->).
      apply final_kept_recorded; assumption.
    + rewrite (Hraise x eq_refl). exact Hkept.
Qed.

Lemma final_kept_run cs w :
  consistent w -> final_kept (optimizer w) ->
  final_kept (optimizer (run cs w).2).
Proof.
  revert w. induction cs as [|c cs IH]; intros w Hw Hkept; [exact Hkept |].
  rewrite run_cons.
  pose proof (consistent_call c w Hw) as Hc.
  pose proof (final_kept_call c w Hw Hkept) as Hk.
  destruct (call c w) as [[u|x] w1]; simpl in *; [apply IH; assumption | exact Hk].
Qed.

(** X12. After a run from a fresh optimizer with at least one epoch, the
    model whose architecture [get_final_architecture] returns is in the
    history, so in what [get_checkpointables] hands out under its one key
    ["model"]; and that is never more than 100 models. *)
Theorem final_architecture_checkpointed cs w config wo lc gc :
  optimizer w = __init__ config wo lc gc ->
  (run cs w).1 = Ok tt ->
  1 <= epochs cs ->
  exists m hist,
    get_final_architecture (run cs w).2 = (Ok (arch m), (run cs w).2) /\
    get_checkpointables (run cs w).2 =
      (Ok [("model"%string, hist)], (run cs w).2) /\
    m ∈ hist /\ length hist <= 100.
Proof.
  intros Ho Hr He.
  pose proof (consistent_fresh _ _ _ _ _ Ho) as Hw.
  pose proof (consistent_run cs w Hw) as Hc.
  assert (Hk0 : final_kept (optimizer w)) by (unfold final_kept; rewrite Ho; exact I).
  pose proof (final_kept_run cs w Hw Hk0) as Hk.
  pose proof (run_sampled cs w Hr) as Hn.
  pose proof (history_bounded _ Hc) as Hlen.
  rewrite get_final_architecture_spec. unfold final_kept in Hk.
  destruct (sampled_archs (optimizer (run cs w).2)) as [|x l].
  { simpl in Hn. lia. }
  exists (max_from accuracy x l), (history (optimizer (run cs w).2)).
  split; [reflexivity |]. split; [reflexivity |]. split; [exact Hk | lia].
Qed.

(** ** The statistics of the best model *)

Lemma arch_query_spec a metric ds w g :
  heap w !! a = Some g ->
  arch_query a metric ds w = (Ok (query g metric ds), w).
Proof.
  intros Hg. unfold arch_query. rewrite bind_eq. unfold deref.
  rewrite Hg. reflexivity.
Qed.

Lemma best_model cs w config wo lc gc :
  optimizer w = __init__ config wo lc gc ->
  (run cs w).1 = Ok tt ->
  1 <= epochs cs ->
  exists m g,
    get_final_architecture (run cs w).2 = (Ok (arch m), (run cs w).2) /\
    m ∈ sampled_archs (optimizer (run cs w).2) /\
    heap (run cs w).2 !! arch m = Some g /\
    accuracy m = query g VAL_ACCURACY (config_dataset config) /\
    dataset (optimizer (run cs w).2) = config_dataset config /\
    forall m', m' ∈ sampled_archs (optimizer (run cs w).2) ->
      (accuracy m' <= accuracy m)%Z.
Proof.
  intros Ho Hr He.
  pose proof (consistent_run cs w (consistent_fresh _ _ _ _ _ Ho)) as Hc.
  pose proof (run_sampled cs w Hr) as Hn.
  destruct (run_settings cs w) as (_ & _ & _ & _ & Hd).
  rewrite Ho in Hd. simpl in Hd.
  rewrite get_final_architecture_spec.
  destruct (sampled_archs (optimizer (run cs w).2)) as [|x l] eqn:Hs.
  { simpl in Hn. lia. }
  destruct (max_from_spec accuracy x l) as [Hin Hmax].
  destruct (sampled_queried _ Hc (max_from accuracy x l)) as (g & Hg & Hacc).
  { rewrite Hs. exact Hin. }
  exists (max_from accuracy x l), g.
  split; [reflexivity |]. split; [exact Hin |]. split; [exact Hg |].
  split; [rewrite Hacc, Hd; reflexivity |]. split; [exact Hd | exact Hmax].
Qed.

(** X13. After a run from a fresh optimizer with at least one epoch,
    [train_statistics] returns and changes nothing; what it returns are
    the training accuracy, training loss, validation accuracy and
    validation loss of the final architecture on the configured dataset,
    and the validation accuracy among them is the accuracy recorded for
    that model, the highest of all sampled models. *)
Theorem train_statistics_best cs w config wo lc gc :
  optimizer w = __init__ config wo lc gc ->
  (run cs w).1 = Ok tt ->
  1 <= epochs cs ->
  exists m g,
    m ∈ sampled_archs (optimizer (run cs w).2) /\
    (forall m', m' ∈ sampled_archs (optimizer (run cs w).2) ->
       (accuracy m' <= accuracy m)%Z) /\
    get_final_architecture (run cs w).2 = (Ok (arch m), (run cs w).2) /\
    heap (run cs w).2 !! arch m = Some g /\
    query g VAL_ACCURACY (config_dataset config) = accuracy m /\
    train_statistics (run cs w).2 =
      (Ok (query g TRAIN_ACCURACY (config_dataset config),
           query g TRAIN_LOSS (config_dataset config),
           query g VAL_ACCURACY (config_dataset config),
           query g VAL_LOSS (config_dataset config)),
       (run cs w).2).
Proof.
  intros Ho Hr He.
  destruct (best_model cs w config wo lc gc Ho Hr He)
    as (m & g & Hfinal & Hin & Hg & Hacc & Hd & Hmax).
  exists m, g. split; [exact Hin |]. split; [exact Hmax |].
  split; [exact Hfinal |]. split; [exact Hg |]. split; [auto |].
  unfold train_statistics.
  rewrite (bind_ok _ _ _ _ _ Hfinal). rewrite bind_eq. simpl. rewrite Hd.
  rewrite (bind_ok _ _ _ _ _ (arch_query_spec _ TRAIN_ACCURACY _ _ _ Hg)).
  rewrite (bind_ok _ _ _ _ _ (arch_query_spec _ TRAIN_LOSS _ _ _ Hg)).
  rewrite (bind_ok _ _ _ _ _ (arch_query_spec _ VAL_ACCURACY _ _ _ Hg)).
  rewrite (bind_ok _ _ _ _ _ (arch_query_spec _ VAL_LOSS _ _ _ Hg)).
  reflexivity.
Qed.

(** X14. After a run from a fresh optimizer with at least one epoch,
    [test_statistics] returns the raw benchmark entry of the final
    architecture on the configured dataset, and changes nothing. *)
Theorem test_statistics_best cs w config wo lc gc :
  optimizer w = __init__ config wo lc gc ->
  (run cs w).1 = Ok tt ->
  1 <= epochs cs ->
  exists a g,
    get_final_architecture (run cs w).2 = (Ok a, (run cs w).2) /\
    heap (run cs w).2 !! a = Some g /\
    test_statistics (run cs w).2 =
      (Ok (query g RAW (config_dataset config)), (run cs w).2).
Proof.
  intros Ho Hr He.
  destruct (best_model cs w config wo lc gc Ho Hr He)
    as (m & g & Hfinal & _ & Hg & _ & Hd & _).
  exists (arch m), g. split; [exact Hfinal |]. split; [exact Hg |].
  unfold test_statistics.
  rewrite (bind_ok _ _ _ _ _ Hfinal). rewrite bind_eq. simpl. rewrite Hd.
  apply arch_query_spec, Hg.
Qed.

(** ** What stays as it was set *)

(** X15. Whatever is called on the optimizer, the settings [__init__]
    made stay: [get_op_optimizer] returns the weight optimizer it was
    constructed with, and the loss, the gradient clip, the dataset and the
    metric [VAL_ACCURACY] are unchanged. *)
Theorem settings_stay cs w config wo lc gc :
  optimizer w = __init__ config wo lc gc ->
  get_op_optimizer (run cs w).2 = (Ok wo, (run cs w).2) /\
  loss (optimizer (run cs w).2) = lc /\
  grad_clip (optimizer (run cs w).2) = gc /\
  performance_metric (optimizer (run cs w).2) = VAL_ACCURACY /\
  dataset (optimizer (run cs w).2) = config_dataset config.
Proof.
  intros Ho. destruct (run_settings cs w) as (H1 & H2 & H3 & H4 & H5).
  rewrite Ho in H1, H2, H3, H4, H5. simpl in *.
  split; [| auto].
  unfold get_op_optimizer. rewrite bind_eq. simpl. rewrite H1. reflexivity.
Qed.

(** X16. [adapt_search_space] never resets the search: whether it returns
    or raises, [sampled_archs] and the history are as before, and
    [get_final_architecture] answers as before. *)
Theorem adapt_search_space_keeps_samples space sc w :
  sampled_archs (optimizer (adapt_search_space space sc w).2) =
    sampled_archs (optimizer w) /\
  history (optimizer (adapt_search_space space sc w).2) =
    history (optimizer w) /\
  (get_final_architecture (adapt_search_space space sc w).2).1 =
    (get_final_architecture w).1.
Proof.
  rewrite !get_final_architecture_spec, adapt_search_space_spec.
  destruct (heap w !! space) as [g|]; [| auto].
  destruct (QUERYABLE g); simpl; [| auto].
  split; [reflexivity |]. split; [reflexivity |].
  destruct (sampled_archs (optimizer w)); reflexivity.
Qed.

Lemma epochs_keep_space es w :
  search_space (optimizer (run (map CallNewEpoch es) w).2) =
    search_space (optimizer w) /\
  scope (optimizer (run (map CallNewEpoch es) w).2) = scope (optimizer w).
Proof.
  revert w. induction es as [|e es IH]; intros w; [split; reflexivity |].
  simpl map. rewrite run_cons. simpl call.
  destruct (new_epoch_frame e w) as (_ & Hsp & Hsc & _).
  destruct (new_epoch e w) as [[u|x] w1]; simpl in *; [| split; assumption].
  destruct (IH w1) as [Hsp1 Hsc1]. split; congruence.
Qed.

(** X17. Every epoch samples from the same search space: after
    [adapt_search_space] on a queryable search space and any number of
    epochs, the optimizer still holds the clone made by
    [adapt_search_space], an object other than the one it was given, and
    both are still equal to the search space as it was given; the scope
    is the one [adapt_search_space] chose. *)
Theorem search_space_stays space sc w g es :
  heap w !! space = Some g ->
  QUERYABLE g = true ->
  exists s,
    search_space
      (optimizer (run (CallAdapt space sc :: map CallNewEpoch es) w).2) = Some s /\
    s <> space /\
    heap (run (CallAdapt space sc :: map CallNewEpoch es) w).2 !! s = Some g /\
    heap (run (CallAdapt space sc :: map CallNewEpoch es) w).2 !! space = Some g /\
    scope (optimizer (run (CallAdapt space sc :: map CallNewEpoch es) w).2) =
      Some (if truthy sc then sc else OPTIMIZER_SCOPE g).
Proof.
  intros Hg Hq. rewrite run_cons. simpl call.
  rewrite adapt_search_space_spec, Hg, Hq.
  set (w1 := mkWorld (heap w ++ [g]) (seed w) (draws w)
               (with_scope (with_search_space (optimizer w) (length (heap w)))
                  (if truthy sc then sc else OPTIMIZER_SCOPE g))).
  destruct (epochs_keep_space es w1) as [Hsp Hsc].
  pose proof (extends_run (map CallNewEpoch es) w1) as Hext.
  exists (length (heap w)).
  split; [rewrite Hsp; reflexivity |].
  split; [apply lookup_lt_Some in Hg; lia |].
  split.
  { eapply prefix_lookup_Some; [| exact Hext]. simpl.
    rewrite lookup_app_r by lia. rewrite Nat.sub_diag. reflexivity. }
  split.
  { eapply prefix_lookup_Some; [| exact Hext]. simpl.
    apply lookup_app_l_Some, Hg. }
  rewrite Hsc. reflexivity.
Qed.

(** X18. After any run from a fresh optimizer, every model in the
    history is one of the sampled models, its architecture is an object
    in the heap, and the accuracy it carries is what the benchmark gives
    for that architecture under [VAL_ACCURACY] on the configured
    dataset. *)
Theorem history_entries_queried cs w config wo lc gc m :
  optimizer w = __init__ config wo lc gc ->
  m ∈ history (optimizer (run cs w).2) ->
  m ∈ sampled_archs (optimizer (run cs w).2) /\
  exists g,
    heap (run cs w).2 !! arch m = Some g /\
    accuracy m = query g VAL_ACCURACY (config_dataset config).
Proof.
  intros Ho Hm.
  pose proof (consistent_run cs w (consistent_fresh _ _ _ _ _ Ho)) as Hc.
  destruct (run_settings cs w) as (_ & _ & _ & _ & Hd).
  rewrite Ho in Hd. simpl in Hd.
  assert (Hs : m ∈ sampled_archs (optimizer (run cs w).2)).
  { eapply elem_of_submseteq; [exact Hm | apply (history_sampled _ Hc)]. }
  split; [exact Hs |].
  destruct (sampled_queried _ Hc m Hs) as (g & Hg & Hacc).
  exists g. split; [exact Hg |]. rewrite Hacc, Hd. reflexivity.
Qed.

(** ** Epochs on an adapted search space *)

(** X19. Once the optimizer holds a search space in which, after
    [prepare_discretization], every edge the scope selects has a non-empty
    list of primitives, any number of epochs in a row all return. *)
Theorem adapted_epochs_return es w space sc g :
  search_space (optimizer w) = Some space ->
  scope (optimizer w) = Some sc ->
  heap w !! space = Some g ->
  (forall ed, ed ∈ edges (prepare g) ->
     in_scope sc (tail_node ed) (head_node ed) = true -> drawable (data ed)) ->
  (run (map CallNewEpoch es) w).1 = Ok tt /\
  length (sampled_archs (optimizer (run (map CallNewEpoch es) w).2)) =
    length es + length (sampled_archs (optimizer w)).
Proof.
  intros Hsp Hsc Hg Hedges.
  pose proof (epochs_return es w space sc g Hsp Hsc Hg Hedges) as Hret.
  split; [exact Hret |].
  rewrite (run_sampled _ _ Hret). f_equal.
  clear. induction es as [|e es IH]; simpl; [reflexivity | rewrite IH; reflexivity].
Qed.

(** What the epochs after one [adapt_search_space] keep true. *)
Lemma discretized_sampled_step e w s sc g :
  search_space (optimizer w) = Some s ->
  scope (optimizer w) = Some sc ->
  heap w !! s = Some g ->
  (forall m, m ∈ sampled_archs (optimizer w) ->
     exists g', heap w !! arch m = Some g' /\
                Forall2 (discretized sc) (edges (prepare g)) (edges g')) ->
  forall m, m ∈ sampled_archs (optimizer (new_epoch e w).2) ->
    exists g', heap (new_epoch e w).2 !! arch m = Some g' /\
               Forall2 (discretized sc) (edges (prepare g)) (edges g').
Proof.
  intros Hsp Hsc Hg Hall.
  pose proof (extends_new_epoch e w) as Hext.
  assert (Hold : forall m, m ∈ sampled_archs (optimizer w) ->
            exists g', heap (new_epoch e w).2 !! arch m = Some g' /\
                       Forall2 (discretized sc) (edges (prepare g)) (edges g')).
  { intros m Hm. destruct (Hall m Hm) as (g' & Hg' & HF).
    exists g'. split; [| exact HF].
    eapply prefix_lookup_Some; eassumption. }
  revert Hext Hold. rewrite new_epoch_spec, Hsp, Hsc.
  pose proof (sample_random_architecture_post s sc w g) as Hpost.
  destruct (sample_random_architecture_frame s sc w) as (_ & Ho & _).
  destruct (sample_random_architecture s sc w) as [[a|x] w1]; simpl in *.
  2: { intros _ Hold. rewrite Ho. exact Hold. }
  destruct (Hpost a Hg eq_refl) as (g' & Hg' & _ & _ & HF).
  rewrite Hg'. simpl. intros _ Hold m Hm.
  apply elem_of_app in Hm as [Hm|Hm]; [apply Hold, Hm |].
  apply list_elem_of_singleton in Hm as ->. simpl.
  exists g'. split; [exact Hg' | exact HF].
Qed.

Lemma discretized_sampled_run es w s sc g :
  search_space (optimizer w) = Some s ->
  scope (optimizer w) = Some sc ->
  heap w !! s = Some g ->
  (forall m, m ∈ sampled_archs (optimizer w) ->
     exists g', heap w !! arch m = Some g' /\
                Forall2 (discretized sc) (edges (prepare g)) (edges g')) ->
  forall m, m ∈ sampled_archs (optimizer (run (map CallNewEpoch es) w).2) ->
    exists g', heap (run (map CallNewEpoch es) w).2 !! arch m = Some g' /\
               Forall2 (discretized sc) (edges (prepare g)) (edges g').
Proof.
  revert w. induction es as [|e es IH]; intros w Hsp Hsc Hg Hall; [exact Hall |].
  simpl map. rewrite run_cons. simpl call.
  pose proof (discretized_sampled_step e w s sc g Hsp Hsc Hg Hall) as Hstep.
  destruct (new_epoch_frame e w) as (_ & Hsp' & Hsc' & Hext & _).
  destruct (new_epoch e w) as [[u|x] w1]; simpl in *; [| exact Hstep].
  apply IH; [congruence | congruence | | exact Hstep].
  eapply prefix_lookup_Some; eassumption.
Qed.

(** X20. After [adapt_search_space] on a queryable search space and any
    number of epochs, every model sampled since, the final one among
    them, has as architecture a discretization of that search space: the
    search space after [prepare_discretization] with, on every edge the
    chosen scope selects, one of the edge's own candidate primitives. *)
Theorem sampled_architectures_discretized space sc w g es :
  heap w !! space = Some g ->
  QUERYABLE g = true ->
  sampled_archs (optimizer w) = [] ->
  forall m,
    m ∈ sampled_archs
          (optimizer (run (CallAdapt space sc :: map CallNewEpoch es) w).2) ->
    exists g',
      heap (run (CallAdapt space sc :: map CallNewEpoch es) w).2 !! arch m
        = Some g' /\
      Forall2
        (discretized (if truthy sc then sc else OPTIMIZER_SCOPE g))
        (edges (prepare g)) (edges g').
Proof.
  intros Hg Hq Hempty. rewrite run_cons. simpl call.
  rewrite adapt_search_space_spec, Hg, Hq.
  apply (discretized_sampled_run es _ (length (heap w))).
  - reflexivity.
  - reflexivity.
  - simpl. rewrite lookup_app_r by lia. rewrite Nat.sub_diag. reflexivity.
  - simpl. rewrite Hempty. intros m Hm. inversion Hm.
Qed.

(** ** One epoch, step by step *)




End Search.

(** ** More on the small benchmark *)

Lemma update_ops_idempotent_toy :
  update_ops (mkEdgeRef 3 0) (update_ops (mkEdgeRef 3 0) (Toy.after 1)).2 =
    (Ok tt, (update_ops (mkEdgeRef 3 0) (Toy.after 1)).2).
Proof.
  apply (update_ops_idempotent (mkEdgeRef 3 0) (Toy.after 1)).
  vm_compute. reflexivity.
Defined.

Lemma update_ops_failure_stale :
  (forall x, (update_ops (mkEdgeRef 0 0) Stale.world).1 = Raise x ->
     (update_ops (mkEdgeRef 0 0) Stale.world).2 = Stale.world) /\
  ((update_ops (mkEdgeRef 0 0) Stale.world).1 = Raise IndexError <->
   exists d prims i,
     edge_at Stale.world (mkEdgeRef 0 0) = Some d /\ candidates d = Some prims /\
     op_index d = Some i /\
     (i < - Z.of_nat (length prims) \/ Z.of_nat (length prims) <= i)%Z).
Proof.
  apply (update_ops_failure (mkEdgeRef 0 0) Stale.world).
Defined.

Lemma add_sampled_op_index_empty_stale :
  (@nil Op = [] ->
   (add_sampled_op_index (mkEdgeRef 0 2) Stale.world).1 = Raise ValueError /\
   heap (add_sampled_op_index (mkEdgeRef 0 2) Stale.world).2 = heap Stale.world /\
   optimizer (add_sampled_op_index (mkEdgeRef 0 2) Stale.world).2 =
     optimizer Stale.world /\
   edge_at (add_sampled_op_index (mkEdgeRef 0 2) Stale.world).2 (mkEdgeRef 0 2) =
     Some (mkEdgeData (OpList []) None None)) /\
  (@nil Op <> [] -> (add_sampled_op_index (mkEdgeRef 0 2) Stale.world).1 = Ok tt) /\
  ((add_sampled_op_index (mkEdgeRef 0 2) Stale.world).1 = Ok tt -> @nil Op <> []).
Proof.
  apply (add_sampled_op_index_empty (mkEdgeRef 0 2) Stale.world
           (mkEdgeData (OpList []) None None) []).
  - reflexivity.
  - reflexivity.
Defined.

Lemma update_ops_selects_stale :
  exists o,
    ["conv"; "skip"; "pool"]%string
      !! Z.to_nat (if (-1 <? 0)%Z then Z.of_nat 3 + -1 else -1)%Z = Some o /\
    (update_ops (mkEdgeRef 0 1) Stale.world).1 = Ok tt /\
    edge_at (update_ops (mkEdgeRef 0 1) Stale.world).2 (mkEdgeRef 0 1) =
      Some (mkEdgeData (OpSingle o) (Some ["conv"; "skip"; "pool"]%string)
              (Some (-1)%Z)) /\
    forall edge', edge' <> mkEdgeRef 0 1 ->
      edge_at (update_ops (mkEdgeRef 0 1) Stale.world).2 edge' =
      edge_at Stale.world edge'.
Proof.
  apply (update_ops_selects (mkEdgeRef 0 1) Stale.world
           (mkEdgeData (OpList ["conv"; "skip"; "pool"]%string) None (Some (-1)%Z))
           ["conv"; "skip"; "pool"]%string (-1)%Z).
  - reflexivity.
  - reflexivity.
  - reflexivity.
  - simpl. lia.
Defined.

Lemma sample_random_architecture_discretizes_toy :
  exists g',
    heap (sample_random_architecture (API := Toy.api) 0 (ScopeName "all") Toy.world).2
      !! 2 = Some g' /\
    QUERYABLE g' = QUERYABLE (prepare (SearchSpaceAPI := Toy.api) Toy.space) /\
    OPTIMIZER_SCOPE g' = OPTIMIZER_SCOPE (prepare (SearchSpaceAPI := Toy.api) Toy.space) /\
    Forall2 (discretized (API := Toy.api) (ScopeName "all"))
      (edges (prepare (SearchSpaceAPI := Toy.api) Toy.space)) (edges g').
Proof.
  apply (sample_random_architecture_discretizes (API := Toy.api)
           0 (ScopeName "all") Toy.world Toy.space 2).
  - reflexivity.
  - vm_compute. reflexivity.
Defined.

Lemma new_epoch_unadapted_toy :
  new_epoch (API := Toy.api) 0 Toy.world = (Raise AttributeError, Toy.world) /\
  forall space sc g,
    heap Toy.world !! space = Some g -> QUERYABLE g = false ->
    new_epoch (API := Toy.api) 0 (adapt_search_space space sc Toy.world).2 =
      (Raise AttributeError, Toy.world).
Proof.
  apply (new_epoch_unadapted (API := Toy.api) 0 Toy.world
           (mkConfig "cifar10") "SGD" "CrossEntropyLoss" None).
  reflexivity.
Defined.

Lemma architectures_separate_toy :
  NoDup (arch <$> sampled_archs (optimizer (Toy.after 3))) /\
  forall m, m ∈ sampled_archs (optimizer (Toy.after 3)) ->
    heap Toy.world !! arch m = None /\
    is_Some (heap (Toy.after 3) !! arch m) /\
    search_space (optimizer (Toy.after 3)) <> Some (arch m).
Proof.
  apply (architectures_separate (API := Toy.api) (Toy.calls 3) Toy.world
           (mkConfig "cifar10") "SGD" "CrossEntropyLoss" None).
  reflexivity.
Defined.

Lemma history_slots_improve_toy :
  exists p',
    history (optimizer (run (API := Toy.api) [CallNewEpoch 100] (Toy.after 100)).2)
      !! 0 = Some p' /\
    (accuracy (mkModel 3 5) <= accuracy p')%Z.
Proof.
  apply (history_slots_improve (API := Toy.api) [CallNewEpoch 100] (Toy.after 100)
           0 (mkModel 3 5)).
  vm_compute. reflexivity.
Defined.

Lemma update_history_full_toy :
  (Forall (fun p => (accuracy (mkModel 0 1) <= accuracy p)%Z)
     (history (optimizer (Toy.after 100))) ->
   history (optimizer (_update_history (mkModel 0 1) (Toy.after 100)).2) =
     history (optimizer (Toy.after 100))) /\
  (Exists (fun p => (accuracy p < accuracy (mkModel 0 1))%Z)
     (history (optimizer (Toy.after 100))) ->
   mkModel 0 1 ∈ history (optimizer (_update_history (mkModel 0 1) (Toy.after 100)).2)).
Proof.
  apply (update_history_full (mkModel 0 1) (Toy.after 100)).
  vm_compute. lia.
Defined.

Lemma get_final_architecture_first_toy :
  get_final_architecture (Toy.after 3) = (Ok (arch (mkModel 3 5)), Toy.after 3).
Proof.
  apply (get_final_architecture_first (Toy.after 3) 0 (mkModel 3 5)).
  - vm_compute. reflexivity.
  - apply (bool_decide_unpack _). vm_compute. exact I.
  - apply (bool_decide_unpack _). vm_compute. exact I.
Defined.

Lemma final_architecture_checkpointed_toy :
  exists m hist,
    get_final_architecture (Toy.after 101) = (Ok (arch m), Toy.after 101) /\
    get_checkpointables (Toy.after 101) =
      (Ok [("model"%string, hist)], Toy.after 101) /\
    m ∈ hist /\ length hist <= 100.
Proof.
  apply (final_architecture_checkpointed (API := Toy.api) (Toy.calls 101) Toy.world
           (mkConfig "cifar10") "SGD" "CrossEntropyLoss" None).
  - reflexivity.
  - vm_compute. reflexivity.
  - vm_compute. lia.
Defined.

Lemma train_statistics_best_toy :
  exists m g,
    m ∈ sampled_archs (optimizer (Toy.after 3)) /\
    (forall m', m' ∈ sampled_archs (optimizer (Toy.after 3)) ->
       (accuracy m' <= accuracy m)%Z) /\
    get_final_architecture (Toy.after 3) = (Ok (arch m), Toy.after 3) /\
    heap (Toy.after 3) !! arch m = Some g /\
    query (SearchSpaceAPI := Toy.api) g VAL_ACCURACY "cifar10" = accuracy m /\
    train_statistics (API := Toy.api) (Toy.after 3) =
      (Ok (query (SearchSpaceAPI := Toy.api) g TRAIN_ACCURACY "cifar10",
           query (SearchSpaceAPI := Toy.api) g TRAIN_LOSS "cifar10",
           query (SearchSpaceAPI := Toy.api) g VAL_ACCURACY "cifar10",
           query (SearchSpaceAPI := Toy.api) g VAL_LOSS "cifar10"),
       Toy.after 3).
Proof.
  apply (train_statistics_best (API := Toy.api) (Toy.calls 3) Toy.world
           (mkConfig "cifar10") "SGD" "CrossEntropyLoss" None).
  - reflexivity.
  - vm_compute. reflexivity.
  - vm_compute. lia.
Defined.

Lemma test_statistics_best_toy :
  exists a g,
    get_final_architecture (Toy.after 3) = (Ok a, Toy.after 3) /\
    heap (Toy.after 3) !! a = Some g /\
    test_statistics (API := Toy.api) (Toy.after 3) =
      (Ok (query (SearchSpaceAPI := Toy.api) g RAW "cifar10"), Toy.after 3).
Proof.
  apply (test_statistics_best (API := Toy.api) (Toy.calls 3) Toy.world
           (mkConfig "cifar10") "SGD" "CrossEntropyLoss" None).
  - reflexivity.
  - vm_compute. reflexivity.
  - vm_compute. lia.
Defined.

Lemma settings_stay_toy :
  get_op_optimizer (Toy.after 3) = (Ok "SGD"%string, Toy.after 3) /\
  loss (optimizer (Toy.after 3)) = "CrossEntropyLoss"%string /\
  grad_clip (optimizer (Toy.after 3)) = None /\
  performance_metric (optimizer (Toy.after 3)) = VAL_ACCURACY /\
  dataset (optimizer (Toy.after 3)) = "cifar10"%string.
Proof.
  apply (settings_stay (API := Toy.api) (Toy.calls 3) Toy.world
           (mkConfig "cifar10") "SGD" "CrossEntropyLoss" None).
  reflexivity.
Defined.

Lemma search_space_stays_toy :
  exists s,
    search_space (optimizer (Toy.after 2)) = Some s /\
    s <> 0 /\
    heap (Toy.after 2) !! s = Some Toy.space /\
    heap (Toy.after 2) !! 0 = Some Toy.space /\
    scope (optimizer (Toy.after 2)) =
      Some (if truthy ScopeNone then ScopeNone else OPTIMIZER_SCOPE Toy.space).
Proof.
  apply (search_space_stays (API := Toy.api) 0 ScopeNone Toy.world Toy.space [0; 1]).
  - reflexivity.
  - reflexivity.
Defined.

Lemma history_entries_queried_toy :
  mkModel 3 5 ∈ sampled_archs (optimizer (Toy.after 2)) /\
  exists g,
    heap (Toy.after 2) !! arch (mkModel 3 5) = Some g /\
    accuracy (mkModel 3 5) = query (SearchSpaceAPI := Toy.api) g VAL_ACCURACY "cifar10".
Proof.
  apply (history_entries_queried (API := Toy.api) (Toy.calls 2) Toy.world
           (mkConfig "cifar10") "SGD" "CrossEntropyLoss" None (mkModel 3 5)).
  - reflexivity.
  - vm_compute. left.
Defined.

Lemma adapted_epochs_return_toy :
  (run (API := Toy.api) (map CallNewEpoch [0; 1; 2]) (Toy.after 0)).1 = Ok tt /\
  length (sampled_archs
            (optimizer (run (API := Toy.api) (map CallNewEpoch [0; 1; 2]) (Toy.after 0)).2)) =
    length [0; 1; 2] + length (sampled_archs (optimizer (Toy.after 0))).
Proof.
  apply (adapted_epochs_return (API := Toy.api) [0; 1; 2] (Toy.after 0) 2
           (ScopeName "all") Toy.space).
  - reflexivity.
  - reflexivity.
  - reflexivity.
  - intros ed Hed _. apply list_elem_of_singleton in Hed as ->.
    eexists. split; [reflexivity | discriminate].
Defined.

Lemma sampled_architectures_discretized_toy :
  exists g',
    heap (Toy.after 2) !! arch (mkModel 3 5) = Some g' /\
    Forall2
      (discretized (API := Toy.api)
         (if truthy ScopeNone then ScopeNone else OPTIMIZER_SCOPE Toy.space))
      (edges (prepare (SearchSpaceAPI := Toy.api) Toy.space)) (edges g').
Proof.
  apply (sampled_architectures_discretized (API := Toy.api) 0 ScopeNone Toy.world
           Toy.space [0; 1]).
  - reflexivity.
  - reflexivity.
  - reflexivity.
  - vm_compute. left.
Defined.

